(** * Document-tree passes of [utils/markdown.ts]

    A shallow embedding of the rehype passes defined in
    [utils/markdown.ts], and of the older copy of the same file where the
    two differ, together with the properties the written specification
    states about them.

    Conventions of the embedding.

    - A JavaScript string is a sequence of UTF-16 code units.  The model
      uses [string], reading every [ascii] as the code unit with the same
      number (so the model covers the code units 0..255).
    - A unist node is an object with a [type], type specific fields and an
      optional [children] array.  [isParentNode] of the source asks
      ['children' in node] for a node of any type, so the model keeps the
      type specific fields in [NodeData] and gives every node an optional
      list of children.
    - A [properties] object is a finite map from keys to values; a key
      bound to [undefined] is read like a missing key by every pass below
      and is modelled as a missing key.
    - The fields that no pass reads or writes ([position], [data]) are
      left out. *)

From Stdlib Require Import ZArith Ascii String List Bool Lia.
From Stdlib Require DecimalString.
From stdpp Require Import base option list strings gmap fin_maps.

Open Scope string_scope.
Open Scope list_scope.

(** ** Data model *)

(** A property value: [string[] | string] of the interfaces. *)
Inductive PropValue : Type :=
| PStr (s : string)
| PList (l : list string).

Abbreviation Properties := (gmap string PropValue).

(** The fields of a node apart from [children]. *)
Inductive NodeData : Type :=
| root
| element (tagName : string) (properties : option Properties)
| text (value : string)
| comment (value : string)
| mdxJsxTextElement (name : string) (properties : option Properties).

#[local] Unset Elimination Schemes.
Inductive Node : Type :=
| node (data : NodeData) (children : option (list Node)).
#[local] Set Elimination Schemes.

Definition data (n : Node) : NodeData := let 'node d _ := n in d.
Definition children (n : Node) : option (list Node) := let 'node _ c := n in c.

(** [node.children] read as a list, the empty list when the field is
    missing. *)
Definition childrenOf (n : Node) : list Node := default [] (children n).

(** [{...node, children: cs}] and [node.children = cs]. *)
Definition setChildren (n : Node) (cs : list Node) : Node :=
  node (data n) (Some cs).

#[global] Instance PropValue_eq_dec : EqDecision PropValue.
Proof. solve_decision. Defined.

#[global] Instance NodeData_eq_dec : EqDecision NodeData.
Proof. solve_decision. Defined.

(** ** Exceptions

    A pass either returns or throws; [result] is the error monad the
    throwing passes run in. *)

Inductive Exn : Type :=
| TypeError (message : string).

Inductive result (A : Type) : Type :=
| Ok (a : A)
| Throw (e : Exn).
Arguments Ok {A} a.
Arguments Throw {A} e.

#[global] Instance result_ret : MRet result := fun A a => Ok a.
#[global] Instance result_bind : MBind result := fun A B k r =>
  match r with
  | Ok a => k a
  | Throw e => Throw e
  end.

#[global] Instance result_fmap : FMap result := fun A B f r =>
  match r with
  | Ok a => Ok (f a)
  | Throw e => Throw e
  end.

Section MapM.
Context {A B : Type} (f : A -> result B).

(** [xs.map(f)] for an [f] that may throw: left to right, the first
    exception ends the loop. *)
Fixpoint mapM (xs : list A) : result (list B) :=
  match xs with
  | [] => Ok []
  | x :: xs' => y ← f x; ys ← mapM xs'; Ok (y :: ys)
  end.
End MapM.

(** ** JavaScript numbers and strings *)

(** The numbers the passes compute with: integers, [NaN] and the two
    infinities. *)
Inductive Num : Type :=
| NaN
| Fin (z : Z)
| Infinity
| NegInfinity.

(** [a < b] *)
Definition Num_lt (a b : Num) : bool :=
  match a, b with
  | Fin x, Fin y => (x <? y)%Z
  | Fin _, Infinity => true
  | NegInfinity, Fin _ => true
  | NegInfinity, Infinity => true
  | _, _ => false
  end.

(** [a + b] *)
Definition Num_add (a b : Num) : Num :=
  match a, b with
  | NaN, _ | _, NaN => NaN
  | Fin x, Fin y => Fin (x + y)
  | Infinity, NegInfinity | NegInfinity, Infinity => NaN
  | Infinity, _ | _, Infinity => Infinity
  | NegInfinity, _ | _, NegInfinity => NegInfinity
  end.

(** [a - b] *)
Definition Num_sub (a b : Num) : Num :=
  match a, b with
  | NaN, _ | _, NaN => NaN
  | Fin x, Fin y => Fin (x - y)
  | Infinity, Infinity | NegInfinity, NegInfinity => NaN
  | Infinity, _ | _, NegInfinity => Infinity
  | NegInfinity, _ | _, Infinity => NegInfinity
  end.

Definition isNaN (a : Num) : bool :=
  match a with NaN => true | _ => false end.

(** [String(n)], as a template literal prints a number. *)
Definition Num_toString (a : Num) : string :=
  match a with
  | NaN => "NaN"
  | Fin z => DecimalString.NilZero.string_of_int (Z.to_int z)
  | Infinity => "Infinity"
  | NegInfinity => "-Infinity"
  end.

Definition codeUnit (c : ascii) : N := N_of_ascii c.

(** White space of [String.prototype.trim] and of the regular expression
    class [\s], among the code units 0..255: TAB, LF, VT, FF, CR, SPACE
    and NO-BREAK SPACE. *)
Definition isWhiteSpace (c : ascii) : bool :=
  let n := codeUnit c in
  ((9 <=? n) && (n <=? 13) || (n =? 32) || (n =? 160))%N.

Definition isDigit (c : ascii) : bool :=
  let n := codeUnit c in ((48 <=? n) && (n <=? 57))%N.

Definition digitValue (c : ascii) : Z := Z.of_N (codeUnit c) - 48.

Fixpoint dropWhile (p : ascii -> bool) (s : string) : string :=
  match s with
  | String c s' => if p c then dropWhile p s' else s
  | EmptyString => EmptyString
  end.

(** The value of the longest prefix of digits, if there is a digit. *)
Fixpoint parseDigits (s : string) (acc : option Z) : option Z :=
  match s with
  | String c s' =>
      if isDigit c
      then parseDigits s' (Some (10 * default 0%Z acc + digitValue c)%Z)
      else acc
  | EmptyString => acc
  end.

(** [parseInt(s, 10)]: leading white space is skipped, one sign is read,
    then the longest run of decimal digits; [NaN] without a digit. *)
Definition parseInt (s : string) : Num :=
  match dropWhile isWhiteSpace s with
  | String "-" s' =>
      match parseDigits s' None with Some z => Fin (- z) | None => NaN end
  | String "+" s' =>
      match parseDigits s' None with Some z => Fin z | None => NaN end
  | s' =>
      match parseDigits s' None with Some z => Fin z | None => NaN end
  end.

(** [s.substr(1)] and [s.slice(1)] *)
Definition dropFirst (s : string) : string :=
  match s with
  | String _ s' => s'
  | EmptyString => EmptyString
  end.

(** [s.startsWith(c)] for a one-character [c] *)
Definition startsWith (c : ascii) (s : string) : bool :=
  match s with
  | String c' _ => bool_decide (c' = c)
  | EmptyString => false
  end.

(** [toLowerCase] of one code unit below 256: A-Z and the capital letters
    of Latin-1 move up by 32. *)
Definition lowerCaseUnit (c : ascii) : ascii :=
  let n := codeUnit c in
  if ((65 <=? n) && (n <=? 90) ||
      (192 <=? n) && (n <=? 222) && negb (n =? 215))%N
  then ascii_of_N (n + 32)
  else c.

Fixpoint toLowerCase (s : string) : string :=
  match s with
  | String c s' => String (lowerCaseUnit c) (toLowerCase s')
  | EmptyString => EmptyString
  end.

Fixpoint rev_string (s acc : string) : string :=
  match s with
  | String c s' => rev_string s' (String c acc)
  | EmptyString => acc
  end.

(** [s.trim()] *)
Definition trim (s : string) : string :=
  rev_string (dropWhile isWhiteSpace
                (rev_string (dropWhile isWhiteSpace s) "")) "".

(** [s.split(sep)] for a one-character separator: the pieces between the
    separators, empty pieces included; never the empty array. *)
Fixpoint split (sep : ascii) (s : string) : list string :=
  match s with
  | EmptyString => [""]
  | String c s' =>
      if bool_decide (c = sep) then "" :: split sep s'
      else match split sep s' with
           | p :: ps => String c p :: ps
           | [] => [String c ""]
           end
  end.

(** [s.replace(/\s+/g, ' ')]: every maximal run of white space becomes one
    space.  [inRun] tells that the previous code unit was white space. *)
Fixpoint replaceWhitespaceRuns (inRun : bool) (s : string) : string :=
  match s with
  | EmptyString => EmptyString
  | String c s' =>
      if isWhiteSpace c
      then if inRun then replaceWhitespaceRuns true s'
           else String " " (replaceWhitespaceRuns true s')
      else String c (replaceWhitespaceRuns false s')
  end.

(** [s.replaceAll('\n', ' ')] *)
Fixpoint replaceNewlines (s : string) : string :=
  match s with
  | EmptyString => EmptyString
  | String c s' =>
      String (if bool_decide (c = "010"%char) then " "%char else c)
             (replaceNewlines s')
  end.

(** A string is truthy when it is not empty. *)
Definition truthy (s : string) : bool :=
  match s with EmptyString => false | _ => true end.

(** [Object.fromEntries(entries)]: a later entry overrides an earlier one
    with the same key. *)
Definition fromEntries (entries : list (string * string)) : Properties :=
  foldl (fun m kv => <[kv.1 := PStr kv.2]> m) ∅ entries.

(** [{...a, ...b}]: the keys of [b] override those of [a]. *)
Definition spread (a : option Properties) (b : Properties) : Properties :=
  b ∪ default ∅ a.

(** ** Type guards *)

Definition isElementNamed (tag : string) (n : Node) : bool :=
  match data n with
  | element tagName _ => bool_decide (tagName = tag)
  | _ => false
  end.

Definition isPreNode : Node -> bool := isElementNamed "pre".
Definition isCodeNode : Node -> bool := isElementNamed "code".
Definition isAnchorNode : Node -> bool := isElementNamed "a".
Definition isPNode : Node -> bool := isElementNamed "p".
Definition isImgNode : Node -> bool := isElementNamed "img".
Definition isPathNode : Node -> bool := isElementNamed "path".

Definition isMdxPNode (n : Node) : bool :=
  match data n with
  | mdxJsxTextElement name _ => bool_decide (name = "p")
  | _ => false
  end.

Definition isTextNode (n : Node) : bool :=
  match data n with text _ => true | _ => false end.

(** ['children' in node] *)
Definition isParentNode (n : Node) : bool :=
  match children n with Some _ => true | None => false end.

(** The test ['element'] of [visit]. *)
Definition isElement (n : Node) : bool :=
  match data n with element _ _ => true | _ => false end.

(** ** Positions in a tree *)

(** A path is the list of child indexes from the root down to a node. *)
Abbreviation Path := (list nat).

Fixpoint subtree (n : Node) (p : Path) : option Node :=
  match p with
  | [] => Some n
  | i :: q => c ← childrenOf n !! i; subtree c q
  end.

(** The tree with the node at [p] replaced by [new]; the tree itself when
    [p] leads nowhere. *)
Fixpoint replaceAt (n : Node) (p : Path) (new : Node) : Node :=
  match p with
  | [] => new
  | i :: q =>
      match childrenOf n !! i with
      | Some c => setChildren n (<[i := replaceAt c q new]> (childrenOf n))
      | None => n
      end
  end.

(** [p] comes before [q] in pre-order (document order): [p] is a proper
    prefix of [q], or [p] branches off to the left of [q]. *)
Fixpoint before (p q : Path) : Prop :=
  match p, q with
  | [], _ :: _ => True
  | i :: p', j :: q' => i < j \/ (i = j /\ before p' q')
  | _, [] => False
  end.

(** The fields of all nodes, in pre-order. *)
Fixpoint preorder (n : Node) : list NodeData :=
  let 'node d cs := n in
  d :: match cs with
       | Some l => flat_map preorder l
       | None => []
       end.

(** The tree with [f] applied to the fields of every node. *)
Fixpoint mapData (f : NodeData -> NodeData) (n : Node) : Node :=
  let 'node d cs := n in
  node (f d) (map (mapData f) <$> cs).

(** ** [visit] of unist-util-visit

    [visit(tree, test, visitor)] walks the tree in pre-order and calls
    [visitor] on every node that passes [test]; the children of a node are
    walked after the node.  The visitors of this file assign to fields of
    the node they are given (never to [children]) and to variables of the
    enclosing function: a visitor is modelled as a function from the fields
    of the node and the enclosing state to the new fields and state, and it
    may throw. *)

Section Visit.
Context {S : Type}.
Variable test : Node -> bool.
Variable visitor : NodeData -> S -> result (NodeData * S).

Fixpoint visit (n : Node) (s : S) {struct n} : result (Node * S) :=
  let 'node d cs := n in
  '(d', s1) ← (if test n then visitor d s else Ok (d, s));
  match cs with
  | None => Ok (node d' None, s1)
  | Some l =>
      '(l', s2) ←
        (fix visitAll (l : list Node) (s : S) {struct l}
           : result (list Node * S) :=
           match l with
           | [] => Ok ([], s)
           | c :: r =>
               '(c', s') ← visit c s;
               '(r', s'') ← visitAll r s';
               Ok (c' :: r', s'')
           end) l s1;
      Ok (node d' (Some l'), s2)
  end.

(** The loop over the children, by its name. *)
Definition visitAll : list Node -> S -> result (list Node * S) :=
  fix visitAll (l : list Node) (s : S) {struct l} :=
    match l with
    | [] => Ok ([], s)
    | c :: r =>
        '(c', s') ← visit c s;
        '(r', s'') ← visitAll r s';
        Ok (c' :: r', s'')
    end.
End Visit.

(** ** Heading normalization: [normalizeHeaders] *)

Definition desiredHeading : Num := Fin 2.

(** [tagName.length === 2 && tagName.toLowerCase().startsWith('h')] *)
Definition isHeadingTag (tagName : string) : bool :=
  (String.length tagName =? 2)%nat && startsWith "h" (toLowerCase tagName).

(** The first visitor: keeps the lowest level seen so far. *)
Definition findMostImportant (d : NodeData) (mostImportantHeading : Num)
  : result (NodeData * Num) :=
  match d with
  | element tagName _ =>
      if isHeadingTag tagName then
        let level := parseInt (dropFirst tagName) in
        if Num_lt level mostImportantHeading
        then Ok (d, level)
        else Ok (d, mostImportantHeading)
      else Ok (d, mostImportantHeading)
  | _ => Ok (d, mostImportantHeading)
  end.

(** The second visitor: renames a heading. *)
Definition renameHeading (mostImportantHeading : Num) (d : NodeData) (u : unit)
  : result (NodeData * unit) :=
  match d with
  | element tagName properties =>
      if isHeadingTag tagName then
        let level := parseInt (dropFirst tagName) in
        if isNaN level then Ok (d, u)
        else
          let newLevel :=
            Num_add (Num_sub desiredHeading mostImportantHeading) level in
          Ok (element ("h" ++ Num_toString newLevel) properties, u)
      else Ok (d, u)
  | _ => Ok (d, u)
  end.

(** The transformer returns the tree when it has no heading; otherwise it
    renames in place and returns nothing, and the tree it was given, as
    renamed, is the result of the pass. *)
Definition normalizeHeaders (tree : Node) : result Node :=
  '(_, mostImportantHeading) ← visit isElement findMostImportant tree Infinity;
  match mostImportantHeading with
  | Infinity => Ok tree
  | _ =>
      '(tree', _) ← visit isElement (renameHeading mostImportantHeading) tree tt;
      Ok tree'
  end.

(** ** Paragraph collapsing: [collapseParagraphs] *)

Fixpoint collapseParagraphs (n : Node) : Node :=
  let 'node d cs := n in
  if isPNode n then
    match cs with
    | Some [c] => if isPNode c || isMdxPNode c then c else n
    | _ => n
    end
  else
    match cs with
    | Some l => node d (Some (map collapseParagraphs l))
    | None => n
    end.

(** ** Link wrapping: [wrapLinksInSpans] *)

Definition innerLink (a : Node) : Node :=
  node (element "span" (Some {[ "class" := PStr "inner-link" ]})) (Some [a]).

Fixpoint wrapLinksInSpans (n : Node) : Node :=
  let 'node d cs := n in
  if isAnchorNode n then innerLink n
  else
    match cs with
    | Some l => node d (Some (map wrapLinksInSpans l))
    | None => n
    end.

(** ** SVG path normalization: [fixSvgPaths] *)

Section FixSvgPaths.
(** The two copies of the file differ in the replacement they apply to
    [d]. *)
Variable replace : string -> string.

(** [if (node.properties?.d) node.properties.d = replace(node.properties.d)];
    a [d] that is an array is truthy and has no [replace] method. *)
Definition fixPath (d : NodeData) : result NodeData :=
  match d with
  | element tagName (Some properties) =>
      match properties !! "d" with
      | Some (PStr v) =>
          if truthy v
          then Ok (element tagName (Some (<["d" := PStr (replace v)]> properties)))
          else Ok d
      | Some (PList _) =>
          Throw (TypeError "node.properties.d.replace is not a function")
      | None => Ok d
      end
  | _ => Ok d
  end.

Fixpoint fixSvgPathsWith (n : Node) : result Node :=
  let 'node d cs := n in
  if isPathNode n then d' ← fixPath d; Ok (node d' cs)
  else
    match cs with
    | Some l => l' ← mapM fixSvgPathsWith l; Ok (node d (Some l'))
    | None => Ok n
    end.
End FixSvgPaths.

(** [utils/markdown.ts] *)
Definition fixSvgPaths : Node -> result Node :=
  fixSvgPathsWith (replaceWhitespaceRuns false).

(** The older copy of the file. *)
Definition fixSvgPaths_old : Node -> result Node :=
  fixSvgPathsWith replaceNewlines.

(** ** Image attributes: [imageAttributes] *)

(** [([key, val]) => [key.trim(), val.trim()]] on one piece of
    [p.split('=')]; a missing element is [undefined], and reading [trim]
    of it throws. *)
Definition trimEntry (piece : list string) : result (string * string) :=
  match piece with
  | key :: val :: _ => Ok (trim key, trim val)
  | _ => Throw (TypeError "Cannot read properties of undefined (reading 'trim')")
  end.

Definition parseTitle (title : string) : result Properties :=
  entries ← mapM trimEntry (map (split "=") (split ";" (dropFirst title)));
  Ok (fromEntries (filter (fun kv => truthy kv.1) entries)).

Definition imageAttribute (d : NodeData) (u : unit) : result (NodeData * unit) :=
  match d with
  | element tagName properties =>
      match properties ≫= (.!! "title") with
      | Some (PStr title) =>
          if startsWith "#" title then
            parsed ← parseTitle title;
            Ok (element tagName (Some (spread properties parsed)), u)
          else Ok (d, u)
      | _ => Ok (d, u)
      end
  | _ => Ok (d, u)
  end.

Definition imageAttributes (tree : Node) : result Node :=
  '(tree', _) ← visit isImgNode imageAttribute tree tt; Ok tree'.

(** ** Lead paragraph: [addLeadToFirstParagraph] *)

(** [{...node, properties: {...node.properties, class: 'lead'}}] *)
Definition withLead (d : NodeData) : NodeData :=
  match d with
  | element tagName properties =>
      element tagName (Some (<["class" := PStr "lead"]> (default ∅ properties)))
  | _ => d
  end.

Fixpoint addLead (n : Node) : bool * Node :=
  let 'node d cs := n in
  if isPNode n then (true, node (withLead d) cs)
  else
    match cs with
    | Some l =>
        let c :=
          foldl (fun (acc : bool * list Node) (child : Node) =>
                   if acc.1 then (acc.1, acc.2 ++ [child])
                   else let result := addLead child in
                        (result.1, acc.2 ++ [result.2]))
                (false, []) l in
        (c.1, node d (Some c.2))
    | None => (false, n)
    end.

Definition addLeadToFirstParagraph (tree : Node) : Node := (addLead tree).2.

(** ** First paragraph: [getOnlyFirstPara] *)

(** [undefined] is [None]. *)
Definition getOnlyFirstPara (tree : Node) : option Node :=
  if isPNode tree then Some tree
  else
    match children tree with
    | Some l => List.find isPNode l
    | None => None
    end.

(** ** Embedded media: [replaceFreeLinkWithOEmbed] *)

(** The answer of the metadata service, as far as the pass reads it. *)
Record OEmbed : Type := {
  oembed_type : string;
  oembed_html : option string;
  oembed_title : option string;
  thumbnail_url : option string;
  thumbnail_width : option Z;
  thumbnail_height : option Z
}.

(** [String(x)] and a template literal hole for an optional value. *)
Definition String_of {A : Type} (show : A -> string) (x : option A) : string :=
  match x with Some a => show a | None => "undefined" end.

(** [{ k: v }] for a [v] that may be [undefined]. *)
Definition optionalProperty (k : string) (v : option string) : Properties :=
  match v with Some s => {[ k := PStr s ]} | None => ∅ end.

Section OEmbed.
(** The state of the metadata service and of its cache. *)
Variable World : Type.
(** [getOEmbed(href, {updateCache, force})] of [./oEmbedCache]: it
    answers with metadata or with nothing, or it fails, and it may
    change the cache. *)
Variable getOEmbed : string -> World -> result (option OEmbed) * World.
(** [tryCatch(() => unified().use(RehypeParse).parse(html))]: the parsed
    root, or the error that was caught. *)
Variable parseHtml : option string -> result Node.
(** The text of [Number(width) / Number(height) || 1.69] for an iframe,
    a floating point computation. *)
Variable aspectOf : Node -> string.

Fixpoint findBody (c : Node) : list Node :=
  let 'node d cs := c in
  match d with
  | element "body" _ => default [] cs
  | _ =>
      match cs with
      | Some l => flat_map findBody l
      | None => []
      end
  end.

Definition wrapIframe (n : Node) : Node :=
  if isElementNamed "iframe" n then
    node (element "div"
            (Some {[ "style" := PStr ("aspect-ratio: " ++ aspectOf n ++ ";") ]}))
         (Some [n])
  else n.

Definition card (href : string) (oEmbed : OEmbed) : Node :=
  let isVideo := bool_decide (oembed_type oEmbed = "video") in
  let isRich := bool_decide (oembed_type oEmbed = "rich") in
  let rest : option Node :=
    if isVideo || isRich then
      match parseHtml (oembed_html oEmbed) with
      | Ok parsed => Some parsed
      | Throw _ => None
      end
    else None in
  let cover : Node :=
    node (element "img"
            (Some (optionalProperty "src" (thumbnail_url oEmbed) ∪
                   {[ "width" := PStr (String_of (fun z => Num_toString (Fin z))
                                         (thumbnail_width oEmbed));
                      "height" := PStr (String_of (fun z => Num_toString (Fin z))
                                          (thumbnail_height oEmbed));
                      "title" := PStr ("Otw" ++ String (ascii_of_nat 243) "rz "
                                         ++ String_of id (oembed_title oEmbed)) ]})))
         None in
  let elements : list Node :=
    match rest with
    | Some parsed => map wrapIframe (flat_map findBody (childrenOf parsed))
    | None => []
    end in
  let shouldLinkWholeCard :=
    isRich && default false (truthy <$> oembed_html oEmbed) in
  let linkProperties : Properties :=
    {[ "href" := PStr href ]} ∪ optionalProperty "title" (oembed_title oEmbed) in
  let hrefText : Node := node (text href) None in
  let cite : Node :=
    node (element "cite" None)
         (Some [ if shouldLinkWholeCard then hrefText
                 else node (element "a" (Some linkProperties)) (Some [hrefText]) ]) in
  let titlePara : Node :=
    node (element "p" (Some {[ "class" := PStr "title" ]}))
         (Some match oembed_title oEmbed with
               | Some t => if truthy t then [node (text t) None] else []
               | None => []
               end) in
  let figcaption : Node :=
    node (element "figcaption" None)
         (Some ([cite; titlePara] ++ (if isRich then elements else []))) in
  let replacement : Node :=
    node (element "figure" (Some {[ "class" := PStr "oembed" ]}))
         (Some ((if isRich then [cover] else [])
                  ++ (if isRich then [] else elements)
                  ++ [figcaption])) in
  if shouldLinkWholeCard
  then node (element "a" (Some linkProperties)) (Some [replacement])
  else replacement.

(** [(anchorNode.children?.[0] as TextNode)?.value] *)
Definition firstValue (anchorNode : Node) : option string :=
  match childrenOf anchorNode with
  | c :: _ =>
      match data c with
      | text value | comment value => Some value
      | _ => None
      end
  | [] => None
  end.

(** The two guards before the lookup: the [href] to look up when the
    node is a paragraph whose only child is an anchor with a non-empty
    [href] that is also the value of the first child of the anchor. *)
Definition freeLink (n : Node) : option string :=
  if isPNode n then
    match children n with
    | Some [anchorNode] =>
        if isAnchorNode anchorNode then
          match data anchorNode with
          | element _ (Some properties) =>
              match properties !! "href" with
              | Some (PStr href) =>
                  if truthy href && bool_decide (firstValue anchorNode = Some href)
                  then Some href
                  else None
              | _ => None
              end
          | _ => None
          end
        else None
    | _ => None
    end
  else None.

(** [preorder] of the transformer; [Bluebird.mapSeries] runs the children
    of the root one after the other, each on the state the one before it
    left, and stops at the first that fails. *)
Fixpoint replaceFreeLinkWithOEmbed (n : Node) (w : World) {struct n}
  : result Node * World :=
  let 'node d cs := n in
  match d, cs with
  | root, Some l =>
      let '(r, w') :=
        (fix mapSeries (l : list Node) (w : World) {struct l}
           : result (list Node) * World :=
           match l with
           | [] => (Ok [], w)
           | c :: l' =>
               match replaceFreeLinkWithOEmbed c w with
               | (Ok c', w1) =>
                   match mapSeries l' w1 with
                   | (Ok r, w2) => (Ok (c' :: r), w2)
                   | (Throw e, w2) => (Throw e, w2)
                   end
               | (Throw e, w1) => (Throw e, w1)
               end
           end) l w in
      (l' ← r; Ok (node d (Some l')), w')
  | _, _ =>
      match freeLink n with
      | None => (Ok n, w)
      | Some href =>
          match getOEmbed href w with
          | (Ok None, w') => (Ok n, w')
          | (Ok (Some oEmbed), w') => (Ok (card href oEmbed), w')
          | (Throw e, w') => (Throw e, w')
          end
      end
  end.

(** The loop over the children of the root, by its name. *)
Definition mapSeries : list Node -> World -> result (list Node) * World :=
  fix mapSeries (l : list Node) (w : World) {struct l} :=
    match l with
    | [] => (Ok [], w)
    | c :: l' =>
        match replaceFreeLinkWithOEmbed c w with
        | (Ok c', w1) =>
            match mapSeries l' w1 with
            | (Ok r, w2) => (Ok (c' :: r), w2)
            | (Throw e, w2) => (Throw e, w2)
            end
        | (Throw e, w1) => (Throw e, w1)
        end
    end.
End OEmbed.

(** A paragraph that holds a bare link, in the specification's words: its
    only child is an anchor whose [href] is not empty and is the text of
    the anchor. *)
Definition bareLink (properties : option Properties) (anchorProperties : Properties)
    (href : string) : Node :=
  node (element "p" properties) (Some [
    node (element "a" (Some (<["href" := PStr href]> anchorProperties)))
         (Some [node (text href) None])]).

(** ** The specification's reading of a tree *)

(** The level of a numeric heading: the digit of a two-letter tag that
    starts with h. *)
Definition headingLevel (d : NodeData) : option Z :=
  match d with
  | element tagName _ =>
      if isHeadingTag tagName then
        match parseInt (dropFirst tagName) with
        | Fin level => Some level
        | _ => None
        end
      else None
  | _ => None
  end.

(** The levels of the numeric headings of a tree, in document order. *)
Definition headingLevels (t : Node) : list Z :=
  omap headingLevel (preorder t).

(** The remapping in the specification's words:
    [newLevel = 2 - minLevel + oldLevel] for a numeric heading, every
    other node as it is. *)
Definition shiftHeading (minLevel : Z) (d : NodeData) : NodeData :=
  match d, headingLevel d with
  | element _ properties, Some oldLevel =>
      element ("h" ++ Num_toString (Fin (2 - minLevel + oldLevel))) properties
  | _, _ => d
  end.

(** Whether a tree has a paragraph, at any depth. *)
Definition hasParagraph (t : Node) : bool :=
  existsb (fun d => isPNode (node d None)) (preorder t).

(** [p] is the position of the first paragraph of [t] in document order. *)
Definition firstParagraphAt (t : Node) (p : Path) : Prop :=
  (exists n, subtree t p = Some n /\ isPNode n = true) /\
  forall q m, subtree t q = Some m -> isPNode m = true -> q = p \/ before p q.

(** The inner node of a paragraph that the collapsing pass unwraps: the
    only child of the paragraph, when it is a paragraph or a component
    paragraph. *)
Definition unwraps (n : Node) : option Node :=
  if isPNode n then
    match children n with
    | Some [c] => if isPNode c || isMdxPNode c then Some c else None
    | _ => None
    end
  else None.

(** The collapsing pass reaches no paragraph to unwrap in [n]: it walks
    down through the nodes that are not paragraphs. *)
Fixpoint settled (n : Node) : bool :=
  let 'node d cs := n in
  if isPNode n then
    match unwraps n with Some _ => false | None => true end
  else
    match cs with
    | Some l => forallb settled l
    | None => true
    end.

(** Every paragraph that the collapsing pass unwraps in [n] has a settled
    inner node. *)
Fixpoint singlyNested (n : Node) : bool :=
  let 'node d cs := n in
  if isPNode n then
    match unwraps n with Some c => settled c | None => true end
  else
    match cs with
    | Some l => forallb singlyNested l
    | None => true
    end.

(** No node strictly above the position [q] of [t] is an anchor. *)
Fixpoint noAnchorAbove (t : Node) (q : Path) : bool :=
  match q with
  | [] => true
  | i :: q' =>
      negb (isAnchorNode t) &&
      match childrenOf t !! i with
      | Some c => noAnchorAbove c q'
      | None => true
      end
  end.

(** No node strictly above the position [q] of [t] is a path element. *)
Fixpoint noPathAbove (t : Node) (q : Path) : bool :=
  match q with
  | [] => true
  | i :: q' =>
      negb (isPathNode t) &&
      match childrenOf t !! i with
      | Some c => noPathAbove c q'
      | None => true
      end
  end.

(** A string cut into its maximal runs of white space and of other code
    units, each run with the flag that tells which of the two it is. *)
Fixpoint runs (s : string) : list (bool * string) :=
  match s with
  | EmptyString => []
  | String c s' =>
      let w := isWhiteSpace c in
      match runs s' with
      | (w', r) :: rest =>
          if Bool.eqb w w' then (w, String c r) :: rest
          else (w, String c "") :: (w', r) :: rest
      | [] => [(w, String c "")]
      end
  end.

Definition unruns (rs : list (bool * string)) : string :=
  foldr (fun r s => (r.2 ++ s)%string) "" rs.

(** A run of white space becomes exactly one space; any other run stays. *)
Definition collapseRun (r : bool * string) : bool * string :=
  if r.1 then (true, " ") else r.

(** The [d] of the specification's example, with its two line feeds. *)
Definition sample_d : string :=
  "M10 10" ++ String "010" (String "010" "  L20   20").

(** One step of the search for the lowest level. *)
Definition lowest (mostImportantHeading : Num) (level : Z) : Num :=
  if Num_lt (Fin level) mostImportantHeading then Fin level
  else mostImportantHeading.

Definition tagNameOf (n : Node) : option string :=
  match data n with
  | element tagName _ => Some tagName
  | _ => None
  end.

(** ** Example documents *)

(** A tree with the levels 3, 3 and 5 of the specification's example, the
    last one nested. *)
Definition headings_335 : Node :=
  node root (Some [
    node (element "h3" None) (Some [node (text "a") None]);
    node (element "h3" None) (Some [node (text "b") None]);
    node (element "div" None) (Some [node (element "h5" None) (Some [])])]).

(** A document whose first paragraph is nested and has a class. *)
Definition nested_intro : Node :=
  node root (Some [
    node (element "h1" None) (Some [node (text "Title") None]);
    node (element "blockquote" None) (Some [
      node (element "p" (Some {[ "class" := PStr "intro" ]}))
           (Some [node (text "First") None])]);
    node (element "p" None) (Some [node (text "Second") None])]).

(** A document whose first paragraph is a direct child of the root. *)
Definition flat_document : Node :=
  node root (Some [
    node (element "h1" None) (Some [node (text "Title") None]);
    node (element "p" None) (Some [node (text "First") None]);
    node (element "blockquote" None) (Some [
      node (element "p" None) (Some [node (text "Quoted") None])])]).

(** A paragraph nested once, and a paragraph nested twice. *)
Definition nested_once : Node :=
  node root (Some [
    node (element "p" None) (Some [
      node (element "p" None) (Some [node (text "a") None])]);
    node (element "p" None) (Some [node (text "b") None])]).

Definition nested_twice : Node :=
  node root (Some [
    node (element "p" None) (Some [
      node (element "p" None) (Some [
        node (element "p" None) (Some [node (text "a") None])])])]).

(** A link in a paragraph, and a card that is a link as a whole and has a
    link inside, as the embedded-media pass builds it for rich content. *)
Definition linked_card : Node :=
  node root (Some [
    node (element "p" None) (Some [
      node (text "See ") None;
      node (element "a" (Some {[ "href" := PStr "/post" ]}))
           (Some [node (text "post") None])]);
    node (element "a" (Some {[ "href" := PStr "https://x.test/" ]})) (Some [
      node (element "figure" (Some {[ "class" := PStr "oembed" ]})) (Some [
        node (element "a" (Some {[ "href" := PStr "https://y.test/" ]}))
             (Some [node (text "y") None])])])]).

(** An icon with the path of the specification's example. *)
Definition icon (d : string) : Node :=
  node (element "svg" (Some {[ "viewBox" := PStr "0 0 24 24" ]})) (Some [
    node (element "path" (Some {[ "d" := PStr d ]})) (Some [])]).

(** A path element inside a path element. *)
Definition nested_paths : Node :=
  node (element "path" (Some {[ "d" := PStr "M0  0" ]})) (Some [
    node (element "path" (Some {[ "d" := PStr "L1  1" ]})) (Some [])]).

Definition image (title : string) : Node :=
  node root (Some [
    node (element "p" None) (Some [
      node (element "img" (Some {[ "src" := PStr "/a.png"; "title" := PStr title ]}))
           None])]).

(** A metadata service that knows no address and counts the lookups. *)
Definition knowsNothing (href : string) (lookups : nat)
  : result (option OEmbed) * nat :=
  (Ok None, S lookups).

Definition neverParses (html : option string) : result Node :=
  Throw (TypeError "no parser").

Definition defaultAspect (iframe : Node) : string := "1.69".

(** ** Code blocks: [addDataToCodeBlocks] *)

(** [s.slice(n)] for [n] within the string *)
Fixpoint sliceFrom (n : nat) (s : string) : string :=
  match n, s with
  | O, _ => s
  | S n', String _ s' => sliceFrom n' s'
  | S _, EmptyString => EmptyString
  end.

Section AddDataToCodeBlocks.
(** [String.prototype.toUpperCase]; it sends some code units below 256 to
    code units above 255 and one of them to two code units. *)
Variable toUpperCase : string -> string.
(** The text of the label in front of the language; it has a letter above
    code unit 255. *)
Variable labelText : string.

(** The visitor.  [className?.find] of a [className] that is a string is
    [undefined], and the call of it throws. *)
Definition addDataToCodeBlock (d : NodeData) (u : unit) : result (NodeData * unit) :=
  match d with
  | element tagName properties =>
      if negb (isPreNode (node d None)) && negb (isCodeNode (node d None))
      then Ok (d, u)
      else
        match properties ≫= (.!! "className") with
        | Some (PStr _) =>
            Throw (TypeError "node.properties.className.find is not a function")
        | Some (PList className) =>
            match List.find (String.prefix "language-") className with
            | Some found =>
                let lang := sliceFrom (String.length "language-") found in
                if truthy lang then
                  let withLang := <["data-lang" := PStr lang]> (default ∅ properties) in
                  Ok (element tagName
                        (Some (if isPreNode (node d None)
                               then <["aria-label" := PStr (labelText ++ toUpperCase lang)]>
                                      withLang
                               else withLang)), u)
                else Ok (d, u)
            | None => Ok (d, u)
            end
        | None => Ok (d, u)
        end
  | _ => Ok (d, u)
  end.

Definition addDataToCodeBlocks (tree : Node) : result Node :=
  '(tree', _) ← visit isElement addDataToCodeBlock tree tt; Ok tree'.
End AddDataToCodeBlocks.

(** ** Style names: [toCamelCase] *)

Definition isLowerLetter (c : ascii) : bool :=
  let n := codeUnit c in ((97 <=? n) && (n <=? 122))%N.

Definition isUpperLetter (c : ascii) : bool :=
  let n := codeUnit c in ((65 <=? n) && (n <=? 90))%N.

(** [toUpperCase] of one of the letters a-z and A-Z. *)
Definition upperLetter (c : ascii) : ascii :=
  if isLowerLetter c then ascii_of_N (codeUnit c - 32) else c.

Section ToCamelCase.
(** The class of the regular expression after the hyphen. *)
Variable letter : ascii -> bool.

(** [str.replace(/-(letter)/g, ...)]: from left to right, a hyphen followed
    by a letter becomes the upper case letter. *)
Fixpoint toCamelCaseWith (s : string) : string :=
  match s with
  | EmptyString => EmptyString
  | String c s' =>
      match s' with
      | String l s'' =>
          if bool_decide (c = "-"%char) && letter l
          then String (upperLetter l) (toCamelCaseWith s'')
          else String c (toCamelCaseWith s')
      | EmptyString => String c EmptyString
      end
  end.
End ToCamelCase.

(** [utils/markdown.ts]: [/-([a-z])/gi], which matches the letters a-z and
    A-Z; the letter found is never empty, so the callback always returns
    its upper case. *)
Definition toCamelCase : string -> string :=
  toCamelCaseWith (fun c => isLowerLetter c || isUpperLetter c).

(** The older copy of the file: [/-([a-z])/g]. *)
Definition toCamelCase_old : string -> string :=
  toCamelCaseWith isLowerLetter.

(** ** The first passes of [toHtml] for an excerpt *)

(** How unified runs a transformer: the node it returns is the tree from
    then on, and when it returns nothing the tree stays. *)
Definition transform (transformer : Node -> option Node) (tree : Node) : Node :=
  default tree (transformer tree).

(** [getOnlyFirstPara] and then [addLeadToFirstParagraph], the two passes
    that [toHtml] adds for an excerpt. *)
Definition excerptPasses (tree : Node) : Node :=
  addLeadToFirstParagraph (transform getOnlyFirstPara tree).

(** ** Readings used by the further properties *)

(** Whether a hyphen of [s] is followed by a letter of the class. *)
Fixpoint hyphenBefore (letter : ascii -> bool) (s : string) : bool :=
  match s with
  | EmptyString => false
  | String c s' =>
      match s' with
      | String l _ => bool_decide (c = "-"%char) && letter l || hyphenBefore letter s'
      | EmptyString => false
      end
  end.

(** Whether [c] is one of the code units of [s]. *)
Fixpoint occurs (c : ascii) (s : string) : bool :=
  match s with
  | EmptyString => false
  | String c' s' => bool_decide (c' = c) || occurs c s'
  end.

(** The language that [addDataToCodeBlocks] reads off an element: the rest
    of the first class that starts with language-, when the element is a
    pre or a code element and the rest is not empty. *)
Definition languageOf (d : NodeData) : option string :=
  match d with
  | element tagName (Some properties) =>
      if bool_decide (tagName = "pre") || bool_decide (tagName = "code") then
        match properties !! "className" with
        | Some (PList className) =>
            match List.find (String.prefix "language-") className with
            | Some found =>
                let lang := sliceFrom 9 found in
                if truthy lang then Some lang else None
            | None => None
            end
        | _ => None
        end
      else None
  | _ => None
  end.

(** A pre or code element whose [className] is a string. *)
Definition stringClassName (d : NodeData) : bool :=
  match d with
  | element tagName (Some properties) =>
      (bool_decide (tagName = "pre") || bool_decide (tagName = "code")) &&
      match properties !! "className" with
      | Some (PStr _) => true
      | _ => false
      end
  | _ => false
  end.

(** Whether [s] has two hyphens in a row followed by a letter of the class
    whose upper case is in the class too. *)
Fixpoint hyphenTriple (letter : ascii -> bool) (s : string) : bool :=
  match s with
  | EmptyString => false
  | String a s' =>
      match s' with
      | String b (String l _) =>
          bool_decide (a = "-"%char) && bool_decide (b = "-"%char) &&
          letter l && letter (upperLetter l) || hyphenTriple letter s'
      | _ => false
      end
  end.

(** [toUpperCase] of a string of the letters a-z and A-Z, for the examples. *)
Fixpoint upperLetters (s : string) : string :=
  match s with
  | EmptyString => EmptyString
  | String c s' => String (upperLetter c) (upperLetters s')
  end.

(** A code block as the Markdown parser and the highlighter leave it. *)
Definition code_sample : Node :=
  node root (Some [
    node (element "pre" (Some {[ "className" := PList ["language-ts"] ]})) (Some [
      node (element "code" (Some {[ "className" := PList ["hljs"; "language-ts"] ]}))
           (Some [node (text "let x = 1") None])]);
    node (element "p" None) (Some [
      node (element "code" None) (Some [node (text "x") None])])]).

(** The title of an image that holds a list of attributes: the [title] of
    an img element, when it is a string that starts with #. *)
Definition directive (d : NodeData) : option string :=
  match d with
  | element tagName (Some properties) =>
      if bool_decide (tagName = "img") then
        match properties !! "title" with
        | Some (PStr title) => if startsWith "#" title then Some title else None
        | _ => None
        end
      else None
  | _ => None
  end.

(** Every piece of the list between two semicolons has an equals sign. *)
Definition wellFormedTitle (title : string) : bool :=
  forallb (occurs "=") (split ";" (dropFirst title)).

(** The text of a tree: the values of its text nodes, in document order. *)
Definition textOf (d : NodeData) : option string :=
  match d with
  | text value => Some value
  | _ => None
  end.

Definition texts (t : Node) : list string := omap textOf (preorder t).

(** A bare link inside a block quote. *)
Definition quoted_link : Node :=
  node root (Some [
    node (element "blockquote" None) (Some [bareLink None ∅ "https://x.test/"])]).

(** A metadata service that fails on every lookup and counts the lookups. *)
Definition alwaysFails (href : string) (lookups : nat)
  : result (option OEmbed) * nat :=
  (Throw (TypeError "fetch failed"), S lookups).

(** * Properties *)

(** Induction over a tree with the induction hypothesis for every child. *)
Lemma Node_rect' (P : Node -> Type) (Q : list Node -> Type)
  (Hleaf : forall d, P (node d None))
  (Hnode : forall d cs, Q cs -> P (node d (Some cs)))
  (Hnil : Q [])
  (Hcons : forall c cs, P c -> Q cs -> Q (c :: cs)) :
  forall n, P n.
Proof.
  fix IH 1. intros [d [cs|]].
  - apply Hnode. induction cs as [|c cs IHcs].
    + exact Hnil.
    + apply Hcons; [apply IH | exact IHcs].
  - apply Hleaf.
Defined.

Lemma Node_ind' (P : Node -> Prop)
  (Hleaf : forall d, P (node d None))
  (Hnode : forall d cs, Forall P cs -> P (node d (Some cs))) :
  forall n, P n.
Proof.
  apply (Node_rect' P (Forall P)); auto.
Qed.


Example parseInt_ex : map parseInt ["3"; "r"; " 12px"; "-7"; "+"; ""] = [Fin 3; NaN; Fin 12; Fin (-7); NaN; NaN].
Proof. reflexivity. Qed.
Example split_ex : split ";" "a=1;;b=2" = ["a=1"; ""; "b=2"] /\ split "=" "" = [""] /\ split ";" "a;" = ["a"; ""].
Proof. vm_compute. auto. Qed.
Example trim_ex : trim "  a b  " = "a b" /\ Num_toString (Fin 10) = "10" /\ Num_toString (Fin 0) = "0"/\ Num_toString (Fin (-3)) = "-3" /\ toLowerCase "H1" = "h1".
Proof. vm_compute. auto. Qed.

(** ** Trees, paths and [visit] *)

Lemma data_mapData f n : data (mapData f n) = f (data n).
Proof. by destruct n. Qed.

Lemma childrenOf_mapData f n :
  childrenOf (mapData f n) = map (mapData f) (childrenOf n).
Proof. by destruct n as [d [l|]]. Qed.

Lemma subtree_mapData f q : forall n,
  subtree (mapData f n) q = mapData f <$> subtree n q.
Proof.
  induction q as [|i q IH]; intros n; simpl; [done|].
  rewrite childrenOf_mapData, list_lookup_fmap.
  destruct (childrenOf n !! i) as [c|]; simpl; [apply IH | done].
Qed.

Lemma preorder_mapData f : forall n,
  preorder (mapData f n) = map f (preorder n).
Proof.
  induction n as [d|d cs IH] using Node_ind'; simpl; [done|].
  f_equal. induction IH as [|c cs Hc _ IHcs]; simpl; [done|].
  by rewrite map_app, Hc, IHcs.
Qed.

Section VisitPure.
Context {S : Type}.
Variables (test : Node -> bool) (testd : NodeData -> bool).
Variable visitor : NodeData -> S -> result (NodeData * S).
Variables (f : NodeData -> NodeData) (g : S -> NodeData -> S).
Hypothesis test_data : forall n, test n = testd (data n).
Hypothesis visitor_pure :
  forall d s, testd d = true -> visitor d s = Ok (f d, g s d).

(** A visitor that never throws maps over the fields and folds over the
    state, both in pre-order. *)
Lemma visit_pure : forall n s,
  visit test visitor n s =
  Ok (mapData (fun d => if testd d then f d else d) n,
      foldl (fun s d => if testd d then g s d else s) s (preorder n)).
Proof.
  induction n as [d|d cs IH] using Node_ind'; intros s; simpl.
  - rewrite test_data; simpl. destruct (testd d) eqn:Ht.
    + by rewrite visitor_pure.
    + done.
  - rewrite test_data; simpl.
    set (s1 := if testd d then g s d else s).
    set (d1 := if testd d then f d else d).
    assert (Hd : (if testd d then visitor d s else Ok (d, s)) = Ok (d1, s1)).
    { unfold d1, s1. destruct (testd d) eqn:Ht; [by rewrite visitor_pure | done]. }
    rewrite Hd; simpl. clearbody s1 d1. clear Hd.
    change (('(l', s2) ← visitAll test visitor cs s1; Ok (node d1 (Some l'), s2)) =
            Ok (node d1 (Some (map (mapData (fun d => if testd d then f d else d)) cs)),
                foldl (fun s d => if testd d then g s d else s) s1
                      (flat_map preorder cs))).
    assert (Hgo : forall s, visitAll test visitor cs s =
      Ok (map (mapData (fun d => if testd d then f d else d)) cs,
          foldl (fun s d => if testd d then g s d else s) s
                (flat_map preorder cs))).
    { induction IH as [|c cs Hc _ IHcs]; intros s0; simpl; [done|].
      rewrite Hc; simpl. rewrite IHcs; simpl. by rewrite foldl_app. }
    by rewrite Hgo.
Qed.
End VisitPure.

(** ** Heading normalization *)

Lemma parseDigits_Some s : forall z, is_Some (parseDigits s (Some z)).
Proof. induction s as [|c s IH]; intros z; simpl; [eauto|]. destruct (isDigit c); eauto. Qed.

Lemma parseInt_cases s : parseInt s = NaN \/ exists z, parseInt s = Fin z.
Proof. unfold parseInt. repeat case_match; eauto. Qed.

Lemma isHeadingTag_inv tagName :
  isHeadingTag tagName = true ->
  exists a b, tagName = String a (String b "").
Proof.
  unfold isHeadingTag. intros [Hl _]%andb_prop.
  destruct tagName as [|a [|b [|c r]]]; try discriminate. eauto.
Qed.

Lemma headingLevel_range d l : headingLevel d = Some l -> (0 <= l <= 9)%Z.
Proof.
  destruct d as [|tagName ps| | |]; simpl; try discriminate.
  destruct (isHeadingTag tagName) eqn:Hh; [|discriminate].
  destruct (isHeadingTag_inv _ Hh) as (a & b & ->). simpl. clear Hh.
  destruct b as [[] [] [] [] [] [] [] []]; vm_compute;
    intros H; try discriminate; injection H as <-; split; discriminate.
Qed.

Lemma findMostImportant_lowest d s :
  findMostImportant d s =
  Ok (d, match headingLevel d with Some l => lowest s l | None => s end).
Proof.
  destruct d as [|tagName ps| | |]; simpl; try done.
  destruct (isHeadingTag tagName); [|done]. unfold lowest.
  destruct (parseInt_cases (dropFirst tagName)) as [->|[z ->]]; [done|].
  by destruct (Num_lt (Fin z) s).
Qed.

Lemma renameHeading_shift m d u :
  renameHeading (Fin m) d u = Ok (shiftHeading m d, u).
Proof.
  destruct d as [|tagName ps| | |]; simpl; try done.
  unfold shiftHeading; simpl.
  destruct (isHeadingTag tagName); [|done].
  by destruct (parseInt_cases (dropFirst tagName)) as [->|[z ->]].
Qed.

Lemma foldl_lowest_levels ds : forall s,
  foldl (fun s d => if isElement (node d None)
                    then match headingLevel d with Some l => lowest s l | None => s end
                    else s) s ds
  = foldl lowest s (omap headingLevel ds).
Proof.
  induction ds as [|d ds IH]; intros s; [done|].
  change (omap headingLevel (d :: ds)) with
    (match headingLevel d with
     | Some l => l :: omap headingLevel ds
     | None => omap headingLevel ds
     end).
  cbn [foldl]. rewrite IH.
  destruct (isElement (node d None)) eqn:E, (headingLevel d) eqn:Hl; try done.
  by destruct d.
Qed.

Lemma foldl_lowest_Fin ls : forall a,
  exists m, foldl lowest (Fin a) ls = Fin m /\
            (m = a \/ m ∈ ls) /\ (m <= a)%Z /\ (forall l, l ∈ ls -> (m <= l)%Z).
Proof.
  induction ls as [|l ls IH]; intros a; simpl.
  - exists a. split_and!; [done|by left|lia|]. by intros l ?%elem_of_nil.
  - unfold lowest at 2; simpl. destruct (Z.ltb_spec l a) as [Hlt|Hge].
    + destruct (IH l) as (m & -> & Hin & Hle & Hall). exists m.
      split_and!; [done| |lia|].
      * right. destruct Hin as [->|]; [left|by right].
      * intros x [->|?]%elem_of_cons; [done|auto].
    + destruct (IH a) as (m & -> & Hin & Hle & Hall). exists m.
      split_and!; [done| |lia|].
      * destruct Hin as [->|]; [by left|by right; right].
      * intros x [->|?]%elem_of_cons; [lia|auto].
Qed.

Lemma foldl_lowest_Infinity ls :
  ls <> [] ->
  exists m, foldl lowest Infinity ls = Fin m /\ m ∈ ls /\
            (forall l, l ∈ ls -> (m <= l)%Z).
Proof.
  destruct ls as [|l ls]; [done|]. intros _.
  change (foldl lowest Infinity (l :: ls)) with (foldl lowest (Fin l) ls).
  destruct (foldl_lowest_Fin ls l) as (m & -> & Hin & Hle & Hall).
  exists m. split_and!; [done| |].
  - destruct Hin as [->|]; [left|by right].
  - intros x [->|?]%elem_of_cons; [done|auto].
Qed.

(** The first traversal leaves the tree alone and computes the lowest
    level. *)
Lemma visit_findMostImportant t :
  visit isElement findMostImportant t Infinity =
  Ok (t, foldl lowest Infinity (headingLevels t)).
Proof.
  rewrite (visit_pure isElement (fun d => isElement (node d None)) findMostImportant
             (fun d => d)
             (fun s d => match headingLevel d with Some l => lowest s l | None => s end)).
  - rewrite foldl_lowest_levels. f_equal. f_equal.
    clear. induction t as [d|d cs IH] using Node_ind'; simpl.
    + by destruct (isElement _).
    + destruct (isElement _); f_equal; f_equal;
        induction IH as [|c cs Hc _ IHcs]; simpl; try done; by rewrite Hc, IHcs.
  - by intros [d cs].
  - intros d s _. apply findMostImportant_lowest.
Qed.

Lemma shiftHeading_not_element m d :
  isElement (node d None) = false -> shiftHeading m d = d.
Proof. by destruct d. Qed.

(** The second traversal is the remapping of the specification. *)
Lemma visit_renameHeading m t :
  visit isElement (renameHeading (Fin m)) t tt = Ok (mapData (shiftHeading m) t, tt).
Proof.
  rewrite (visit_pure isElement (fun d => isElement (node d None)) (renameHeading (Fin m))
             (shiftHeading m) (fun s _ => s)).
  - f_equal. f_equal.
    + clear. induction t as [d|d cs IH] using Node_ind'; simpl.
      * destruct (isElement _) eqn:E; [done|]. by rewrite shiftHeading_not_element.
      * f_equal.
        { destruct (isElement _) eqn:E; [done|]. by rewrite shiftHeading_not_element. }
        f_equal. induction IH as [|c cs Hc _ IHcs]; simpl; [done|]. by rewrite Hc, IHcs.
    + generalize (preorder t). intros l. induction l as [|d l IH]; simpl; [done|].
      by destruct (isElement _).
  - by intros [d cs].
  - intros d [] _. apply renameHeading_shift.
Qed.

Lemma headingLevel_shiftHeading m d l :
  headingLevel d = Some l -> (0 <= m <= l)%Z ->
  headingLevel (shiftHeading m d) =
  if (2 - m + l <=? 9)%Z then Some (2 - m + l)%Z else None.
Proof.
  intros Hl Hm. pose proof (headingLevel_range _ _ Hl) as Hr.
  destruct d as [|tagName ps| | |]; try discriminate.
  unfold shiftHeading. rewrite Hl.
  assert (Hk : (2 - m + l = 2 \/ 2 - m + l = 3 \/ 2 - m + l = 4 \/ 2 - m + l = 5 \/
                2 - m + l = 6 \/ 2 - m + l = 7 \/ 2 - m + l = 8 \/ 2 - m + l = 9 \/
                2 - m + l = 10 \/ 2 - m + l = 11)%Z) by lia.
  destruct Hk as [-> | [-> | [-> | [-> | [-> | [-> | [-> | [-> | [-> | ->]]]]]]]]];
    reflexivity.
Qed.

Lemma shiftHeading_no_level m d : headingLevel d = None -> shiftHeading m d = d.
Proof. intros H. destruct d; try done. unfold shiftHeading. by rewrite H. Qed.

Lemma normalizeHeaders_no_heading t :
  headingLevels t = [] -> normalizeHeaders t = Ok t.
Proof.
  intros H. unfold normalizeHeaders.
  rewrite visit_findMostImportant, H. reflexivity.
Qed.

Lemma normalizeHeaders_some_heading t :
  headingLevels t <> [] ->
  exists minLevel,
    minLevel ∈ headingLevels t /\
    (forall l, l ∈ headingLevels t -> (minLevel <= l)%Z) /\
    normalizeHeaders t = Ok (mapData (shiftHeading minLevel) t).
Proof.
  intros H. destruct (foldl_lowest_Infinity _ H) as (m & Hm & Hin & Hall).
  exists m. split_and!; [done..|].
  unfold normalizeHeaders. rewrite visit_findMostImportant, Hm. simpl.
  by rewrite visit_renameHeading.
Qed.

Lemma headingLevels_elem l t :
  l ∈ headingLevels t <-> exists d, d ∈ preorder t /\ headingLevel d = Some l.
Proof. unfold headingLevels. apply list_elem_of_omap. Qed.

(** The levels after the remapping: the lowest is 2. *)
Lemma headingLevels_shifted m t :
  m ∈ headingLevels t ->
  (forall l, l ∈ headingLevels t -> (m <= l)%Z) ->
  2%Z ∈ headingLevels (mapData (shiftHeading m) t) /\
  (forall l, l ∈ headingLevels (mapData (shiftHeading m) t) -> (2 <= l)%Z).
Proof.
  intros Hin Hall.
  assert (Hm0 : (0 <= m)%Z).
  { apply headingLevels_elem in Hin as (d & _ & Hd).
    by apply headingLevel_range in Hd as [? _]. }
  split.
  - apply headingLevels_elem in Hin as (d & Hd & Hl).
    apply headingLevels_elem. exists (shiftHeading m d). split.
    + rewrite preorder_mapData. by apply list_elem_of_fmap_2.
    + rewrite (headingLevel_shiftHeading m d m) by (done || lia).
      replace (2 - m + m)%Z with 2%Z by lia. done.
  - intros l (d' & Hd' & Hl)%headingLevels_elem.
    rewrite preorder_mapData in Hd'.
    apply list_elem_of_fmap in Hd' as (d & -> & Hd).
    destruct (headingLevel d) as [l0|] eqn:Hl0.
    + assert (m <= l0)%Z by (apply Hall, headingLevels_elem; eauto).
      rewrite (headingLevel_shiftHeading m d l0) in Hl by (done || lia).
      destruct (2 - m + l0 <=? 9)%Z; [|done]. injection Hl as <-. lia.
    + rewrite shiftHeading_no_level in Hl by done. congruence.
Qed.

Lemma tagNameOf_shifted m n l :
  headingLevel (data n) = Some l ->
  tagNameOf (mapData (shiftHeading m) n) =
  Some ("h" ++ Num_toString (Fin (2 - m + l)))%string.
Proof.
  intros Hl. unfold tagNameOf. rewrite data_mapData.
  destruct (data n) as [|tagName ps| | |]; try discriminate.
  unfold shiftHeading. by rewrite Hl.
Qed.

(** C1. For every tree with at least one numeric heading (in particular
    one of h1..h6), heading normalization succeeds and its result is the
    tree in which every numeric heading of level [oldLevel] is renamed to
    the level [2 - minLevel + oldLevel] and nothing else is changed, where
    [minLevel] is the lowest heading level of the tree; the lowest heading
    level of the result is 2; and for any two headings the difference of
    their new levels is the difference of their old levels.  For every
    tree without a numeric heading the pass returns the tree as it is. *)
Theorem normalizeHeaders_constant_shift (t : Node) :
  (headingLevels t <> [] ->
   exists (minLevel : Z) (t' : Node),
     normalizeHeaders t = Ok t' /\
     minLevel ∈ headingLevels t /\
     (forall l, l ∈ headingLevels t -> (minLevel <= l)%Z) /\
     t' = mapData (shiftHeading minLevel) t /\
     2%Z ∈ headingLevels t' /\
     (forall l, l ∈ headingLevels t' -> (2 <= l)%Z) /\
     (forall q1 q2 n1 n2 l1 l2,
        subtree t q1 = Some n1 -> headingLevel (data n1) = Some l1 ->
        subtree t q2 = Some n2 -> headingLevel (data n2) = Some l2 ->
        exists n1' n2' l1' l2',
          subtree t' q1 = Some n1' /\ subtree t' q2 = Some n2' /\
          tagNameOf n1' = Some ("h" ++ Num_toString (Fin l1'))%string /\
          tagNameOf n2' = Some ("h" ++ Num_toString (Fin l2'))%string /\
          l1' = (2 - minLevel + l1)%Z /\ l2' = (2 - minLevel + l2)%Z /\
          (l1' - l2' = l1 - l2)%Z))
  /\
  (headingLevels t = [] -> normalizeHeaders t = Ok t).
Proof.
  split; [|apply normalizeHeaders_no_heading].
  intros H. destruct (normalizeHeaders_some_heading t H) as (m & Hin & Hall & Hrun).
  exists m, (mapData (shiftHeading m) t).
  destruct (headingLevels_shifted m t Hin Hall) as [H2 Hge].
  split_and!; try done.
  intros q1 q2 n1 n2 l1 l2 Hq1 Hl1 Hq2 Hl2.
  exists (mapData (shiftHeading m) n1), (mapData (shiftHeading m) n2),
    (2 - m + l1)%Z, (2 - m + l2)%Z.
  rewrite !subtree_mapData, Hq1, Hq2.
  split_and!; try done; try (by apply tagNameOf_shifted); lia.
Qed.

Lemma normalizeHeaders_constant_shift_witness :
  headingLevels headings_335 = [3; 3; 5]%Z /\
  exists (minLevel : Z) (t' : Node),
    normalizeHeaders headings_335 = Ok t' /\
    minLevel ∈ headingLevels headings_335 /\
    (forall l, l ∈ headingLevels headings_335 -> (minLevel <= l)%Z) /\
    t' = mapData (shiftHeading minLevel) headings_335 /\
    2%Z ∈ headingLevels t' /\
    (forall l, l ∈ headingLevels t' -> (2 <= l)%Z) /\
    (forall q1 q2 n1 n2 l1 l2,
        subtree headings_335 q1 = Some n1 -> headingLevel (data n1) = Some l1 ->
        subtree headings_335 q2 = Some n2 -> headingLevel (data n2) = Some l2 ->
        exists n1' n2' l1' l2',
          subtree t' q1 = Some n1' /\ subtree t' q2 = Some n2' /\
          tagNameOf n1' = Some ("h" ++ Num_toString (Fin l1'))%string /\
          tagNameOf n2' = Some ("h" ++ Num_toString (Fin l2'))%string /\
          l1' = (2 - minLevel + l1)%Z /\ l2' = (2 - minLevel + l2)%Z /\
          (l1' - l2' = l1 - l2)%Z).
Proof.
  split; [reflexivity|].
  apply (proj1 (normalizeHeaders_constant_shift headings_335)).
  vm_compute. discriminate.
Defined.

Example normalizeHeaders_335 :
  headingLevels <$> normalizeHeaders headings_335 = Ok [2; 2; 4]%Z.
Proof. vm_compute. reflexivity. Qed.

(** C9. Heading normalization has no upper bound on the levels: a tree
    whose lowest heading level is 1 and which has an h6 element gets that
    element renamed to h7. *)
Theorem normalizeHeaders_no_cap :
  exists (t t' : Node) (q : Path) ps cs,
    headingLevels t = [1; 6]%Z /\
    subtree t q = Some (node (element "h6" ps) cs) /\
    normalizeHeaders t = Ok t' /\
    subtree t' q = Some (node (element "h7" ps) cs).
Proof.
  exists (node root (Some [node (element "h1" None) (Some [node (text "Title") None]);
                           node (element "h6" None) (Some [node (text "Note") None])])).
  eexists. exists [1], None, (Some [node (text "Note") None]).
  split_and!; [reflexivity..| vm_compute; reflexivity | reflexivity].
Qed.

(** ** Paths *)

Lemma before_irrefl p : ~ before p p.
Proof. induction p as [|i p IH]; simpl; [tauto|]. intros [?|[_ ?]]; [lia|tauto]. Qed.

Lemma before_asym p : forall q, before p q -> before q p -> False.
Proof.
  induction p as [|i p IH]; intros [|j q]; simpl; try tauto.
  intros [?|[? ?]] [?|[? ?]]; try lia. eauto.
Qed.

Lemma isPNode_data n : isPNode n = isPNode (node (data n) None).
Proof. by destruct n. Qed.

Lemma isAnchorNode_data n : isAnchorNode n = isAnchorNode (node (data n) None).
Proof. by destruct n. Qed.

Lemma isPathNode_data n : isPathNode n = isPathNode (node (data n) None).
Proof. by destruct n. Qed.

Lemma subtree_cons n i q :
  subtree n (i :: q) = childrenOf n !! i ≫= fun c => subtree c q.
Proof. done. Qed.

Lemma subtree_app p : forall t q,
  subtree t (p ++ q) = subtree t p ≫= fun n => subtree n q.
Proof.
  induction p as [|i p IH]; intros t q; simpl; [done|].
  destruct (childrenOf t !! i); simpl; [apply IH|done].
Qed.

(** Replacing the node at [p] by a node with the same children changes
    the fields at [p] and nothing at any other position. *)
Lemma subtree_replaceAt_eq p : forall t n x,
  subtree t p = Some n -> subtree (replaceAt t p x) p = Some x.
Proof.
  induction p as [|i p IH]; intros t n x; simpl; [done|].
  destruct (childrenOf t !! i) as [c|] eqn:Hc; simpl; [|done].
  intros Hn. unfold setChildren, childrenOf at 1; simpl.
  rewrite list_lookup_insert_eq by (by eapply lookup_lt_Some). simpl. eauto.
Qed.

Lemma subtree_replaceAt_other p : forall t n x q,
  subtree t p = Some n -> childrenOf x = childrenOf n -> q <> p ->
  data <$> subtree (replaceAt t p x) q = data <$> subtree t q.
Proof.
  induction p as [|i p IH]; intros t n x q; simpl.
  - intros [= ->] Hx Hq. destruct q as [|j q]; [done|].
    by rewrite !subtree_cons, Hx.
  - destruct (childrenOf t !! i) as [c|] eqn:Hc; simpl; [|done].
    intros Hn Hx Hq. destruct q as [|j q]; [done|].
    rewrite !subtree_cons. unfold setChildren, childrenOf at 1; simpl.
    destruct (decide (i = j)) as [<-|Hij].
    + rewrite list_lookup_insert_eq by (by eapply lookup_lt_Some).
      rewrite Hc; simpl. eapply IH; eauto. congruence.
    + by rewrite list_lookup_insert_ne.
Qed.

(** ** Lead paragraph *)

Lemma existsb_flat_map {A B} (f : B -> bool) (g : A -> list B) l :
  existsb f (flat_map g l) = existsb (fun x => existsb f (g x)) l.
Proof. induction l as [|x l IH]; simpl; [done|]. by rewrite existsb_app, IH. Qed.

Lemma hasParagraph_node d cs :
  hasParagraph (node d cs) =
  isPNode (node d None) || existsb hasParagraph (default [] cs).
Proof.
  unfold hasParagraph. destruct cs as [l|]; simpl; [|done].
  by rewrite existsb_flat_map.
Qed.

Lemma hasParagraph_child t i c :
  hasParagraph t = false -> childrenOf t !! i = Some c -> hasParagraph c = false.
Proof.
  destruct t as [d cs]. rewrite hasParagraph_node. unfold childrenOf; simpl.
  intros [_ H]%orb_false_elim Hc.
  destruct (hasParagraph c) eqn:E; [|done].
  rewrite <- H. symmetry. apply existsb_exists. exists c. split; [|done].
  apply list_elem_of_In. by eapply list_elem_of_lookup_2.
Qed.

Lemma no_paragraph_subtree q : forall t m,
  hasParagraph t = false -> subtree t q = Some m -> isPNode m = false.
Proof.
  induction q as [|i q IH]; intros t m Ht; simpl.
  - intros [= <-]. destruct t as [d cs]. rewrite hasParagraph_node in Ht.
    apply orb_false_elim in Ht as [Ht _]. by rewrite isPNode_data.
  - destruct (childrenOf t !! i) as [c|] eqn:Hc; simpl; [|done].
    apply IH. by eapply hasParagraph_child.
Qed.

Lemma paragraph_subtree t :
  hasParagraph t = true -> exists q m, subtree t q = Some m /\ isPNode m = true.
Proof.
  induction t as [d|d cs IH] using Node_ind'; rewrite hasParagraph_node; simpl.
  - rewrite orb_false_r. intros H. by exists [], (node d None).
  - intros [H|H]%orb_prop.
    + exists [], (node d (Some cs)). by rewrite isPNode_data.
    + apply existsb_exists in H as (c & Hin & Hc).
      apply list_elem_of_In, list_elem_of_lookup in Hin as [i Hi].
      rewrite Forall_forall in IH.
      destruct (IH c) as (q & m & Hq & Hm); [by eapply list_elem_of_lookup_2|done|].
      exists (i :: q), m. split; [|done].
      rewrite subtree_cons. unfold childrenOf; simpl. by rewrite Hi.
Qed.

(** The step of the [reduce] over the children. *)
Local Abbreviation leadStep :=
  (fun (acc : bool * list Node) (child : Node) =>
     if acc.1 then (acc.1, acc.2 ++ [child])
     else ((addLead child).1, acc.2 ++ [(addLead child).2])).

Lemma addLead_paragraph d cs :
  isPNode (node d None) = true ->
  addLead (node d cs) = (true, node (withLead d) cs).
Proof.
  intros H. destruct cs; simpl; rewrite (isPNode_data (node d _)); simpl;
    by rewrite H.
Qed.

Lemma addLead_parent d l :
  isPNode (node d None) = false ->
  addLead (node d (Some l)) =
  ((foldl leadStep (false, []) l).1, node d (Some (foldl leadStep (false, []) l).2)).
Proof.
  intros H. simpl. rewrite (isPNode_data (node d _)); simpl. by rewrite H.
Qed.

Lemma addLead_leaf d :
  isPNode (node d None) = false -> addLead (node d None) = (false, node d None).
Proof. intros H. simpl. by rewrite H. Qed.

Lemma leadStep_found l : forall acc,
  foldl leadStep (true, acc) l = (true, acc ++ l).
Proof.
  induction l as [|c l IH]; intros acc; simpl; [by rewrite app_nil_r|].
  rewrite IH. by rewrite <- app_assoc.
Qed.

Lemma leadStep_none l : forall acc,
  Forall (fun c => addLead c = (false, c)) l ->
  foldl leadStep (false, acc) l = (false, acc ++ l).
Proof.
  induction l as [|c l IH]; intros acc H; simpl; [by rewrite app_nil_r|].
  inversion H as [|? ? Hc Hl]; subst. rewrite Hc; simpl.
  rewrite IH by done. by rewrite <- app_assoc.
Qed.

Lemma leadStep_first pre c c' post : forall acc,
  Forall (fun c => addLead c = (false, c)) pre ->
  addLead c = (true, c') ->
  foldl leadStep (false, acc) (pre ++ c :: post) = (true, acc ++ pre ++ c' :: post).
Proof.
  induction pre as [|x pre IH]; intros acc Hpre Hc; simpl.
  - rewrite Hc; simpl. rewrite leadStep_found. by rewrite <- app_assoc.
  - inversion Hpre as [|? ? Hx Hp]; subst. rewrite Hx; simpl.
    rewrite IH by done. by rewrite <- app_assoc.
Qed.

(** The first child with a paragraph. *)
Lemma existsb_first {A} (f : A -> bool) l :
  existsb f l = true ->
  exists pre c post, l = pre ++ c :: post /\ forallb (fun x => negb (f x)) pre = true /\ f c = true.
Proof.
  induction l as [|x l IH]; simpl; [done|].
  destruct (f x) eqn:Hx.
  - intros _. by exists [], x, l.
  - intros (pre & c & post & -> & Hpre & Hc)%IH.
    exists (x :: pre), c, post. simpl. by rewrite Hx, Hpre.
Qed.

(** What the pass computes: without a paragraph nothing is found and the
    tree is rebuilt as it was; with one, the node at the first position of
    a paragraph in document order gets the lead class and nothing else
    changes. *)
Lemma addLead_spec (t : Node) :
  (hasParagraph t = false -> addLead t = (false, t)) /\
  (hasParagraph t = true ->
   exists p n,
     subtree t p = Some n /\ isPNode n = true /\
     (forall q m, subtree t q = Some m -> isPNode m = true -> q = p \/ before p q) /\
     addLead t = (true, replaceAt t p (node (withLead (data n)) (children n)))).
Proof.
  induction t as [d|d cs IH] using Node_ind'.
  - rewrite hasParagraph_node; cbn [from_option existsb].
    rewrite orb_false_r. split; intros H.
    + by apply addLead_leaf.
    + exists [], (node d None). split_and!; try done.
      * intros [|j q] m _ _; [by left|by right].
      * by apply addLead_paragraph.
  - rewrite hasParagraph_node; cbn [from_option]; unfold id.
    destruct (isPNode (node d None)) eqn:Hd; cbn [orb].
    + split; [done|]. intros _. exists [], (node d (Some cs)).
      split_and!; try done.
      * intros [|j q] m _ _; [by left|by right].
      * by apply addLead_paragraph.
    + split; intros H.
      * rewrite addLead_parent by done.
        rewrite leadStep_none; [done|].
        rewrite Forall_forall in IH |- *. intros c Hc.
        apply IH; [done|].
        destruct (hasParagraph c) eqn:E; [|done].
        rewrite <- H. symmetry. apply existsb_exists. exists c.
        by rewrite <- list_elem_of_In.
      * apply existsb_first in H as (pre & c & post & -> & Hpre & Hc).
        apply Forall_app in IH as [IHpre IHc].
        inversion IHc as [|? ? [_ IHc'] _]; subst.
        destruct (IHc' Hc) as (p & n & Hp & Hn & Hmin & Hrun).
        assert (Hnone : Forall (fun c => hasParagraph c = false) pre).
        { apply Forall_forall. intros x Hx.
          rewrite forallb_forall in Hpre. apply list_elem_of_In, Hpre in Hx.
          by apply negb_true_iff in Hx. }
        exists (length pre :: p), n.
        assert (Hlook : (pre ++ c :: post) !! length pre = Some c).
        { by rewrite list_lookup_middle. }
        split_and!; try done.
        -- rewrite subtree_cons. unfold childrenOf; simpl. by rewrite Hlook.
        -- intros [|j q] m Hq Hm.
           { injection Hq as <-. rewrite isPNode_data in Hm; simpl in Hm. congruence. }
           rewrite subtree_cons in Hq. unfold childrenOf in Hq; simpl in Hq.
           destruct ((pre ++ c :: post) !! j) as [cj|] eqn:Hj; [|done]. simpl in Hq.
           destruct (lt_eq_lt_dec j (length pre)) as [[Hlt | ->] | Hgt].
           ++ exfalso. rewrite lookup_app_l in Hj by done.
              rewrite Forall_forall in Hnone.
              assert (hasParagraph cj = false)
                by (apply Hnone; by eapply list_elem_of_lookup_2).
              pose proof (no_paragraph_subtree q cj m ltac:(done) Hq). congruence.
           ++ rewrite Hlook in Hj. injection Hj as <-.
              destruct (Hmin q m Hq Hm) as [->|Hb]; [by left|].
              right. simpl. by right.
           ++ right. simpl. by left.
        -- rewrite addLead_parent by done.
           rewrite (leadStep_first pre c
                      (replaceAt c p (node (withLead (data n)) (children n))) post []);
             [|rewrite Forall_forall in IHpre, Hnone |- *; intros x Hx;
               apply IHpre; auto | done].
           simpl. unfold childrenOf; simpl. rewrite Hlook.
           unfold setChildren; simpl. do 3 f_equal.
           rewrite insert_app_r_alt by done.
           by rewrite Nat.sub_diag.
Qed.

Lemma isPNode_inv n :
  isPNode n = true -> exists properties, data n = element "p" properties.
Proof.
  destruct n as [[|tagName ps| | |] cs]; try discriminate.
  unfold isPNode, isElementNamed; simpl. intros ->%bool_decide_eq_true. eauto.
Qed.

Lemma firstParagraphAt_unique t p q :
  firstParagraphAt t p -> firstParagraphAt t q -> p = q.
Proof.
  intros [(n & Hn & Pn) Hp] [(m & Hm & Pm) Hq].
  destruct (Hp q m Hm Pm) as [->|Hpq]; [done|].
  destruct (Hq p n Hn Pn) as [->|Hqp]; [done|].
  destruct (before_asym _ _ Hpq Hqp).
Qed.

(** With a paragraph in the tree, the pass is the replacement of the first
    paragraph in document order by the same node with the lead class. *)
Lemma addLeadToFirstParagraph_replaceAt t :
  hasParagraph t = true ->
  exists p n,
    firstParagraphAt t p /\ subtree t p = Some n /\ isPNode n = true /\
    addLeadToFirstParagraph t = replaceAt t p (node (withLead (data n)) (children n)).
Proof.
  intros H. destruct (proj2 (addLead_spec t) H) as (p & n & Hp & Hn & Hmin & Hrun).
  exists p, n. unfold addLeadToFirstParagraph. rewrite Hrun.
  split_and!; try done. split; eauto.
Qed.

(** C5. Lead marking changes exactly one node, the first paragraph in
    document order: in a tree with a paragraph, the result is the tree with
    the node at the position [p] of that paragraph replaced by the same
    node with the attribute class set to lead, and at every other position
    the result has a node exactly where the tree has one, with the same
    fields; a tree without a paragraph is returned as it is. *)
Theorem addLeadToFirstParagraph_exactly_one (t : Node) :
  (hasParagraph t = true ->
   exists (p : Path) (n : Node) (properties : option Properties),
     firstParagraphAt t p /\
     subtree t p = Some n /\
     data n = element "p" properties /\
     addLeadToFirstParagraph t =
       replaceAt t p
         (node (element "p" (Some (<["class" := PStr "lead"]> (default ∅ properties))))
               (children n)) /\
     subtree (addLeadToFirstParagraph t) p =
       Some (node (element "p" (Some (<["class" := PStr "lead"]> (default ∅ properties))))
                  (children n)) /\
     (forall q, q <> p ->
        data <$> subtree (addLeadToFirstParagraph t) q = data <$> subtree t q))
  /\
  (hasParagraph t = false -> addLeadToFirstParagraph t = t).
Proof.
  split.
  - intros H.
    destruct (addLeadToFirstParagraph_replaceAt t H) as (p & n & Hfirst & Hp & Hn & Hrun).
    destruct (isPNode_inv n Hn) as [properties Hd].
    exists p, n, properties. rewrite Hrun, Hd. simpl.
    split_and!; try done.
    + by eapply subtree_replaceAt_eq.
    + intros q Hq. by eapply subtree_replaceAt_other.
  - intros H. unfold addLeadToFirstParagraph.
    by rewrite (proj1 (addLead_spec t) H).
Qed.

(** C10. Lead marking overwrites the class: when the first paragraph in
    document order has a class attribute, after the pass its class is
    exactly lead, whatever it was, and its other attributes and its
    children are as before. *)
Theorem addLeadToFirstParagraph_overwrites_class
    (t : Node) (p : Path) (properties : Properties) (old : PropValue)
    (cs : option (list Node)) :
  firstParagraphAt t p ->
  subtree t p = Some (node (element "p" (Some properties)) cs) ->
  properties !! "class" = Some old ->
  exists properties' : Properties,
    subtree (addLeadToFirstParagraph t) p =
      Some (node (element "p" (Some properties')) cs) /\
    properties' !! "class" = Some (PStr "lead") /\
    properties' = <["class" := PStr "lead"]> properties /\
    (forall k, k <> "class" -> properties' !! k = properties !! k).
Proof.
  intros Hfirst Hp Hold.
  assert (H : hasParagraph t = true).
  { destruct (hasParagraph t) eqn:E; [done|].
    by pose proof (no_paragraph_subtree p t _ E Hp). }
  destruct (addLeadToFirstParagraph_replaceAt t H) as (p0 & n & Hfirst0 & Hp0 & Hn & Hrun).
  assert (p0 = p) as -> by (by eapply firstParagraphAt_unique).
  rewrite Hp in Hp0. injection Hp0 as <-. simpl in Hrun.
  exists (<["class" := PStr "lead"]> properties). rewrite Hrun.
  split_and!; [by eapply subtree_replaceAt_eq | by rewrite lookup_insert_eq | done |].
  intros k Hk. by rewrite lookup_insert_ne.
Qed.

Lemma nested_intro_first : firstParagraphAt nested_intro [1; 0].
Proof.
  split; [eexists; split; reflexivity|].
  intros q m Hq Hm.
  destruct q as [|[|[|i]] q]; simpl in Hq.
  - injection Hq as <-. discriminate.
  - destruct q as [|[|j] q]; simpl in Hq; [injection Hq as <-; discriminate| |done].
    destruct q; [injection Hq as <-; discriminate|done].
  - destruct q as [|[|j] q]; simpl in Hq; [injection Hq as <-; discriminate| |done].
    destruct q as [|k q]; [by left|]. right. simpl. right. split; [done|]. by right.
  - right. simpl. left. lia.
Qed.

Lemma addLeadToFirstParagraph_exactly_one_witness :
  hasParagraph nested_intro = true /\
  exists (p : Path) (n : Node) (properties : option Properties),
    firstParagraphAt nested_intro p /\
    subtree nested_intro p = Some n /\
    data n = element "p" properties /\
    addLeadToFirstParagraph nested_intro =
      replaceAt nested_intro p
        (node (element "p" (Some (<["class" := PStr "lead"]> (default ∅ properties))))
              (children n)) /\
    subtree (addLeadToFirstParagraph nested_intro) p =
      Some (node (element "p" (Some (<["class" := PStr "lead"]> (default ∅ properties))))
                 (children n)) /\
    (forall q, q <> p ->
       data <$> subtree (addLeadToFirstParagraph nested_intro) q =
       data <$> subtree nested_intro q).
Proof.
  split; [reflexivity|].
  apply (proj1 (addLeadToFirstParagraph_exactly_one nested_intro)). reflexivity.
Defined.

Lemma addLeadToFirstParagraph_overwrites_class_witness :
  firstParagraphAt nested_intro [1; 0] /\
  exists properties' : Properties,
    subtree (addLeadToFirstParagraph nested_intro) [1; 0] =
      Some (node (element "p" (Some properties')) (Some [node (text "First") None])) /\
    properties' !! "class" = Some (PStr "lead") /\
    properties' = <["class" := PStr "lead"]> {[ "class" := PStr "intro" ]} /\
    (forall k, k <> "class" ->
       properties' !! k = ({[ "class" := PStr "intro" ]} : Properties) !! k).
Proof.
  split; [exact nested_intro_first|].
  apply (addLeadToFirstParagraph_overwrites_class nested_intro [1; 0]
           {[ "class" := PStr "intro" ]} (PStr "intro")
           (Some [node (text "First") None])).
  - exact nested_intro_first.
  - reflexivity.
  - apply lookup_singleton_eq.
Defined.

Example addLead_nested_intro :
  addLeadToFirstParagraph nested_intro =
  node root (Some [
    node (element "h1" None) (Some [node (text "Title") None]);
    node (element "blockquote" None) (Some [
      node (element "p" (Some (<["class" := PStr "lead"]> {[ "class" := PStr "intro" ]})))
           (Some [node (text "First") None])]);
    node (element "p" None) (Some [node (text "Second") None])]).
Proof. reflexivity. Qed.

(** ** First paragraph *)

Section Find.
Context {A : Type} (f : A -> bool).

Lemma find_first (l : list A) : forall i x,
  l !! i = Some x -> f x = true ->
  (forall j y, j < i -> l !! j = Some y -> f y = false) ->
  List.find f l = Some x.
Proof.
  induction l as [|a l IH]; intros i x Hi Hx Hbefore; [done|].
  destruct i as [|i]; simpl in *.
  - injection Hi as ->. by rewrite Hx.
  - rewrite (Hbefore 0 a) by (done || lia).
    apply (IH i); [done..|]. intros j y Hj Hy. apply (Hbefore (S j)); [lia|done].
Qed.

Lemma find_Some_first (l : list A) : forall x,
  List.find f l = Some x ->
  exists i, l !! i = Some x /\ f x = true /\
            forall j y, j < i -> l !! j = Some y -> f y = false.
Proof.
  induction l as [|a l IH]; intros x; simpl; [done|].
  destruct (f a) eqn:Ha.
  - intros [= <-]. exists 0. split_and!; [done..|]. intros; lia.
  - intros (i & Hi & Hx & Hbefore)%IH. exists (S i). split_and!; [done..|].
    intros [|j] y Hj; simpl; [by intros [= <-]|]. apply Hbefore. lia.
Qed.

Lemma find_None_all (l : list A) :
  List.find f l = None -> forall i x, l !! i = Some x -> f x = false.
Proof.
  intros H i x Hi. apply (find_none f l H).
  apply list_elem_of_In. by eapply list_elem_of_lookup_2.
Qed.
End Find.

Lemma getOnlyFirstPara_paragraph t : isPNode t = true -> getOnlyFirstPara t = Some t.
Proof. unfold getOnlyFirstPara. by intros ->. Qed.

Lemma getOnlyFirstPara_other t :
  isPNode t = false -> getOnlyFirstPara t = List.find isPNode (childrenOf t).
Proof. unfold getOnlyFirstPara, childrenOf. intros ->. by destruct (children t). Qed.

Lemma subtree_singleton t i : subtree t [i] = childrenOf t !! i.
Proof. simpl. by destruct (childrenOf t !! i). Qed.

Lemma hasParagraph_root t : hasParagraph t = false -> isPNode t = false.
Proof. intros H. by apply (no_paragraph_subtree [] t t). Qed.

(** C4, as amended.  The extraction looks at the root and at the direct
    children of the root only: it returns the first of these nodes, in
    document order, that is a paragraph, and nothing when none of them is
    one.  So it returns the paragraph that lead marking would mark whenever
    that paragraph is the root or a direct child of the root, and it
    returns nothing for a tree without a paragraph. *)
Theorem getOnlyFirstPara_shallow (t : Node) :
  (forall p, firstParagraphAt t p -> length p <= 1 ->
             getOnlyFirstPara t = subtree t p) /\
  (forall n, getOnlyFirstPara t = Some n ->
     exists p, length p <= 1 /\ subtree t p = Some n /\ isPNode n = true /\
       forall q m, length q <= 1 -> subtree t q = Some m -> isPNode m = true ->
                   q = p \/ before p q) /\
  (getOnlyFirstPara t = None ->
     forall q m, length q <= 1 -> subtree t q = Some m -> isPNode m = false) /\
  (hasParagraph t = false -> getOnlyFirstPara t = None).
Proof.
  split_and!.
  - intros p [(n & Hn & Pn) Hmin] Hlen.
    destruct p as [|i [|? ?]]; [| |simpl in Hlen; lia].
    + injection Hn as <-. by apply getOnlyFirstPara_paragraph.
    + assert (Ht : isPNode t = false).
      { destruct (isPNode t) eqn:E; [|done].
        destruct (Hmin [] t eq_refl E) as [?|[]]; done. }
      rewrite getOnlyFirstPara_other, Hn by done.
      rewrite subtree_singleton in Hn.
      apply (find_first _ _ i); [done..|].
      intros j c Hj Hc. destruct (isPNode c) eqn:E; [|done].
      rewrite <- subtree_singleton in Hc.
      destruct (Hmin [j] c Hc E) as [[= ->]|Hb]; [lia|].
      simpl in Hb. destruct Hb as [?|[_ []]]. lia.
  - intros n Hn. destruct (isPNode t) eqn:Ht.
    + rewrite getOnlyFirstPara_paragraph in Hn by done. injection Hn as <-.
      exists []. split_and!; [simpl; lia|done..|].
      intros [|j q] m _ _ _; [by left|by right].
    + rewrite getOnlyFirstPara_other in Hn by done.
      apply find_Some_first in Hn as (i & Hi & Pn & Hbefore).
      exists [i]. rewrite subtree_singleton. split_and!; [simpl; lia|done..|].
      intros [|j [|? ?]] m Hlen Hq Pm; [| |simpl in Hlen; lia].
      * injection Hq as <-. congruence.
      * rewrite subtree_singleton in Hq.
        destruct (lt_eq_lt_dec j i) as [[Hlt | ->] | Hgt].
        -- rewrite (Hbefore j m) in Pm by done. done.
        -- by left.
        -- right. simpl. by left.
  - intros Hnone q m Hlen Hq. destruct (isPNode t) eqn:Ht.
    + by rewrite getOnlyFirstPara_paragraph in Hnone.
    + rewrite getOnlyFirstPara_other in Hnone by done.
      destruct q as [|j [|? ?]]; [| |simpl in Hlen; lia].
      * injection Hq as <-. done.
      * rewrite subtree_singleton in Hq. by eapply find_None_all.
  - intros H. rewrite getOnlyFirstPara_other by (by apply hasParagraph_root).
    destruct (List.find isPNode (childrenOf t)) as [c|] eqn:E; [|done].
    apply find_Some_first in E as (i & Hi & Pc & _).
    rewrite <- subtree_singleton in Hi.
    by rewrite (no_paragraph_subtree [i] t c H Hi) in Pc.
Qed.

Lemma flat_document_first : firstParagraphAt flat_document [1].
Proof.
  split; [eexists; split; reflexivity|].
  intros q m Hq Hm.
  destruct q as [|[|[|i]] q]; simpl in Hq.
  - injection Hq as <-. discriminate.
  - destruct q as [|[|j] q]; simpl in Hq; [injection Hq as <-; discriminate| |done].
    destruct q; [injection Hq as <-; discriminate|done].
  - destruct q as [|k q]; [by left|]. right. simpl. by right.
  - right. simpl. left. lia.
Qed.

Lemma getOnlyFirstPara_shallow_witness :
  firstParagraphAt flat_document [1] /\ length [1] <= 1 /\
  getOnlyFirstPara flat_document = subtree flat_document [1] /\
  hasParagraph (node root (Some [node (text "x") None])) = false /\
  getOnlyFirstPara (node root (Some [node (text "x") None])) = None.
Proof.
  split_and!.
  - exact flat_document_first.
  - simpl. lia.
  - apply (proj1 (getOnlyFirstPara_shallow flat_document) [1]).
    + exact flat_document_first.
    + simpl. lia.
  - reflexivity.
  - apply (proj2 (proj2 (proj2 (getOnlyFirstPara_shallow _)))). reflexivity.
Defined.

Example getOnlyFirstPara_nested_intro :
  subtree nested_intro [1; 0] =
    Some (node (element "p" (Some {[ "class" := PStr "intro" ]}))
               (Some [node (text "First") None])) /\
  getOnlyFirstPara nested_intro =
    Some (node (element "p" None) (Some [node (text "Second") None])) /\
  hasParagraph (node root (Some [node (element "blockquote" None)
                  (Some [node (element "p" None) (Some [])])])) = true /\
  getOnlyFirstPara (node root (Some [node (element "blockquote" None)
                      (Some [node (element "p" None) (Some [])])])) = None.
Proof. split_and!; reflexivity. Qed.

(** C4, as stated, fails: in [nested_intro] the first paragraph in document
    order, the one lead marking marks, is nested in the block quote at
    position [1; 0], and the extraction returns the later paragraph at
    position [2]. *)
Lemma getOnlyFirstPara_misses_nested :
  ~ (forall p, firstParagraphAt nested_intro p ->
               getOnlyFirstPara nested_intro = subtree nested_intro p).
Proof. intros H. specialize (H [1; 0] nested_intro_first). discriminate H. Qed.

(** ** Paragraph collapsing *)

Lemma collapseParagraphs_paragraph n :
  isPNode n = true -> collapseParagraphs n = default n (unwraps n).
Proof.
  intros H. destruct n as [d cs]. unfold unwraps. simpl. rewrite H.
  destruct cs as [[|c [|? ?]]|]; simpl; try done.
  by destruct (isPNode c || isMdxPNode c).
Qed.

Lemma collapseParagraphs_parent d l :
  isPNode (node d None) = false ->
  collapseParagraphs (node d (Some l)) = node d (Some (map collapseParagraphs l)).
Proof. intros H. simpl. rewrite (isPNode_data (node d _)); simpl. by rewrite H. Qed.

Lemma collapseParagraphs_leaf d : collapseParagraphs (node d None) = node d None.
Proof. simpl. by destruct (isPNode _). Qed.

Lemma unwraps_child n c : unwraps n = Some c -> children n = Some [c].
Proof.
  unfold unwraps. destruct (isPNode n); [|done].
  destruct (children n) as [[|x [|? ?]]|]; try done.
  destruct (isPNode x || isMdxPNode x); [|done]. by intros [= ->].
Qed.

(** No node is its own only child. *)
Lemma not_own_child : forall n d, n <> node d (Some [n]).
Proof.
  induction n as [d'|d' cs IH] using Node_ind'; intros d; [done|].
  intros [= _ Hcs]. destruct cs as [|x [|? ?]]; try discriminate.
  injection Hcs as Hx. inversion IH as [|? ? Hc _]; subst. by apply (Hc d').
Qed.

Lemma map_fixed {A} (f : A -> A) (l : list A) :
  map f l = l <-> Forall (fun x => f x = x) l.
Proof.
  induction l as [|x l IH]; simpl; [by split; [constructor|]|].
  split.
  - intros [= Hx Hl]. constructor; [done|by apply IH].
  - intros H. inversion H as [|? ? Hx Hl]; subst. by rewrite Hx, (proj2 IH Hl).
Qed.

(** The pass leaves a tree as it is exactly when the tree is settled. *)
Lemma settled_fixed : forall n, settled n = true <-> collapseParagraphs n = n.
Proof.
  induction n as [d|d cs IH] using Node_ind'.
  - rewrite collapseParagraphs_leaf. simpl. unfold unwraps. simpl.
    by destruct (isPNode _).
  - destruct (isPNode (node d (Some cs))) eqn:Hp.
    + rewrite collapseParagraphs_paragraph by done.
      cbn [settled]. rewrite Hp.
      destruct (unwraps (node d (Some cs))) as [c|] eqn:Hu; simpl; [|done].
      split; [done|]. intros Heq. apply unwraps_child in Hu. simpl in Hu.
      injection Hu as ->. by apply not_own_child in Heq.
    + rewrite collapseParagraphs_parent by (by rewrite isPNode_data in Hp).
      cbn [settled]. rewrite Hp. rewrite forallb_forall.
      split.
      * intros H. do 2 f_equal. apply map_fixed. rewrite Forall_forall in IH |- *.
        intros c Hc. apply IH; [done|]. by apply H, list_elem_of_In.
      * intros [= H]. apply map_fixed in H. rewrite Forall_forall in IH, H.
        intros c Hc%list_elem_of_In. apply IH; auto.
Qed.

Lemma map_map_fixed {A} (f : A -> A) (l : list A) :
  map f (map f l) = map f l <-> Forall (fun x => f (f x) = f x) l.
Proof.
  rewrite map_fixed, Forall_map. done.
Qed.

(** C3, as amended.  A run of the pass removes one level of nesting and
    does not look inside the node it puts in the place of a paragraph.
    Collapsing twice yields the same tree as collapsing once exactly for
    the trees in which every paragraph that the pass unwraps has an inner
    node that the pass leaves as it is. *)
Theorem collapseParagraphs_idempotent_iff : forall t : Node,
  collapseParagraphs (collapseParagraphs t) = collapseParagraphs t <->
  singlyNested t = true.
Proof.
  induction t as [d|d cs IH] using Node_ind'.
  - rewrite !collapseParagraphs_leaf. simpl. unfold unwraps. simpl.
    by destruct (isPNode _).
  - destruct (isPNode (node d (Some cs))) eqn:Hp.
    + rewrite (collapseParagraphs_paragraph (node d (Some cs))) by done.
      cbn [singlyNested]. rewrite Hp.
      destruct (unwraps (node d (Some cs))) as [c|] eqn:Hu; cbn [default from_option]; unfold id.
      * symmetry. apply settled_fixed.
      * rewrite collapseParagraphs_paragraph, Hu by done. done.
    + assert (Hd : isPNode (node d None) = false) by (by rewrite isPNode_data in Hp).
      rewrite !collapseParagraphs_parent by done.
      cbn [singlyNested]. rewrite Hp. rewrite forallb_forall.
      split.
      * intros [= H]. apply map_map_fixed in H. rewrite Forall_forall in IH, H.
        intros c Hc%list_elem_of_In. apply IH; auto.
      * intros H. do 2 f_equal. apply map_map_fixed. rewrite Forall_forall in IH |- *.
        intros c Hc. apply IH; [done|]. by apply H, list_elem_of_In.
Qed.

Lemma collapseParagraphs_idempotent_iff_witness :
  singlyNested nested_once = true /\
  collapseParagraphs (collapseParagraphs nested_once) = collapseParagraphs nested_once.
Proof.
  split; [reflexivity|].
  apply (proj2 (collapseParagraphs_idempotent_iff nested_once)). reflexivity.
Defined.

(** C3, as stated, fails: a paragraph nested twice loses one level in each
    of the two runs. *)
Lemma collapseParagraphs_not_idempotent :
  collapseParagraphs (collapseParagraphs nested_twice) <> collapseParagraphs nested_twice.
Proof. discriminate. Qed.

Example collapseParagraphs_nested_twice :
  collapseParagraphs nested_twice =
    node root (Some [node (element "p" None) (Some [
                       node (element "p" None) (Some [node (text "a") None])])]) /\
  collapseParagraphs (collapseParagraphs nested_twice) =
    node root (Some [node (element "p" None) (Some [node (text "a") None])]).
Proof. split; reflexivity. Qed.

(** ** Link wrapping *)

Lemma wrapLinksInSpans_anchor a :
  isAnchorNode a = true -> wrapLinksInSpans a = innerLink a.
Proof. intros H. destruct a as [d cs]. simpl. by rewrite H. Qed.

Lemma wrapLinksInSpans_other n :
  isAnchorNode n = false ->
  data (wrapLinksInSpans n) = data n /\
  childrenOf (wrapLinksInSpans n) = map wrapLinksInSpans (childrenOf n).
Proof. intros H. destruct n as [d [l|]]; simpl; by rewrite H. Qed.

(** Down to a position with no anchor above it the pass keeps the
    positions, and the node there is the pass applied to the node of the
    input. *)
Lemma subtree_wrapLinksInSpans q : forall t,
  noAnchorAbove t q = true ->
  subtree (wrapLinksInSpans t) q = wrapLinksInSpans <$> subtree t q.
Proof.
  induction q as [|i q IH]; intros t; simpl; [done|].
  intros [Ht Hc]%andb_prop. apply negb_true_iff in Ht.
  destruct (wrapLinksInSpans_other t Ht) as [_ ->].
  rewrite list_lookup_fmap.
  destruct (childrenOf t !! i) as [c|]; simpl; [by apply IH|done].
Qed.

Lemma noAnchorAbove_app q0 : forall t r,
  noAnchorAbove t (q0 ++ r) = true -> noAnchorAbove t q0 = true.
Proof.
  induction q0 as [|i q0 IH]; intros t r; simpl; [done|].
  intros [Ht Hc]%andb_prop. rewrite Ht; simpl.
  destruct (childrenOf t !! i) as [c|]; [by eapply IH|done].
Qed.

Lemma noAnchorAbove_last q0 : forall t i parent,
  noAnchorAbove t (q0 ++ [i]) = true -> subtree t q0 = Some parent ->
  isAnchorNode parent = false.
Proof.
  induction q0 as [|j q0 IH]; intros t i parent; simpl.
  - intros [Ht _]%andb_prop [= <-]. by apply negb_true_iff.
  - intros [_ Hc]%andb_prop.
    destruct (childrenOf t !! j) as [c|]; simpl; [by eapply IH|done].
Qed.

(** C6, as amended.  For every anchor of the input that is not inside
    another anchor, after one run of the pass the position of the anchor
    holds a new element with tag span and class inner-link whose only child
    is the anchor, as it was; the parent of that element is the parent the
    anchor had, with the fields it had, so the anchor is wrapped once; and
    whatever is below the anchor, anchors included, is left as it was. *)
Theorem wrapLinksInSpans_outermost (t : Node) (q : Path) (a : Node) :
  subtree t q = Some a -> isAnchorNode a = true -> noAnchorAbove t q = true ->
  subtree (wrapLinksInSpans t) q =
    Some (node (element "span" (Some {[ "class" := PStr "inner-link" ]})) (Some [a])) /\
  subtree (wrapLinksInSpans t) (q ++ [0]) = Some a /\
  (forall q0 i parent, q = q0 ++ [i] -> subtree t q0 = Some parent ->
     exists parent', subtree (wrapLinksInSpans t) q0 = Some parent' /\
                     data parent' = data parent /\ isAnchorNode parent' = false) /\
  (forall r, subtree (wrapLinksInSpans t) (q ++ 0 :: r) = subtree a r).
Proof.
  intros Hq Ha Habove.
  assert (Hw : subtree (wrapLinksInSpans t) q = Some (innerLink a)).
  { rewrite subtree_wrapLinksInSpans, Hq by done. simpl.
    by rewrite wrapLinksInSpans_anchor. }
  split_and!.
  - exact Hw.
  - by rewrite subtree_app, Hw.
  - intros q0 i parent -> Hp.
    pose proof (noAnchorAbove_last _ _ _ _ Habove Hp) as Hna.
    exists (wrapLinksInSpans parent).
    rewrite subtree_wrapLinksInSpans, Hp by (by eapply noAnchorAbove_app).
    destruct (wrapLinksInSpans_other parent Hna) as [Hd _].
    split_and!; [done..|].
    rewrite isAnchorNode_data, Hd, <- isAnchorNode_data. done.
  - intros r. by rewrite subtree_app, Hw.
Qed.

Lemma wrapLinksInSpans_outermost_witness :
  subtree linked_card [0; 1] =
    Some (node (element "a" (Some {[ "href" := PStr "/post" ]}))
               (Some [node (text "post") None])) /\
  noAnchorAbove linked_card [0; 1] = true /\
  subtree (wrapLinksInSpans linked_card) [0; 1] =
    Some (node (element "span" (Some {[ "class" := PStr "inner-link" ]}))
               (Some [node (element "a" (Some {[ "href" := PStr "/post" ]}))
                           (Some [node (text "post") None])])) /\
  subtree (wrapLinksInSpans linked_card) [0; 1; 0] =
    Some (node (element "a" (Some {[ "href" := PStr "/post" ]}))
               (Some [node (text "post") None])).
Proof.
  split; [reflexivity|]. split; [reflexivity|].
  destruct (wrapLinksInSpans_outermost linked_card [0; 1]
              (node (element "a" (Some {[ "href" := PStr "/post" ]}))
                    (Some [node (text "post") None]))
              eq_refl eq_refl eq_refl) as (Hwrapper & Hanchor & _).
  split; [exact Hwrapper | exact Hanchor].
Defined.

Example wrapLinksInSpans_linked_card :
  wrapLinksInSpans linked_card =
  node root (Some [
    node (element "p" None) (Some [
      node (text "See ") None;
      innerLink (node (element "a" (Some {[ "href" := PStr "/post" ]}))
                      (Some [node (text "post") None]))]);
    innerLink
      (node (element "a" (Some {[ "href" := PStr "https://x.test/" ]})) (Some [
         node (element "figure" (Some {[ "class" := PStr "oembed" ]})) (Some [
           node (element "a" (Some {[ "href" := PStr "https://y.test/" ]}))
                (Some [node (text "y") None])])]))]).
Proof. reflexivity. Qed.

(** C6, as stated, fails: the anchor inside the card of [linked_card] is an
    anchor of the input, and in the result no element with tag span and
    class inner-link has it as a child (its parent is still the figure). *)
Lemma wrapLinksInSpans_skips_nested :
  ~ (forall q a, subtree linked_card q = Some a -> isAnchorNode a = true ->
       exists q' i parent properties,
         subtree (wrapLinksInSpans linked_card) q' = Some parent /\
         childrenOf parent !! i = Some a /\
         data parent = element "span" (Some properties) /\
         properties !! "class" = Some (PStr "inner-link")).
Proof.
  intros H.
  destruct (H [1; 0; 0] _ eq_refl eq_refl) as (q' & i & parent & ps & Hq' & Hi & Hd & _).
  rewrite wrapLinksInSpans_linked_card in Hq'.
  repeat (destruct q' as [|[|[|?]] q']; simpl in Hq'; try discriminate Hq');
    injection Hq' as <-; try discriminate Hd;
    destruct i as [|[|?]]; discriminate Hi.
Qed.

(** ** SVG paths: the replacement *)

Lemma unruns_runs s : unruns (runs s) = s.
Proof.
  induction s as [|c s IH]; simpl; [done|].
  destruct (runs s) as [|[w' r] rest]; simpl in *; [by rewrite <- IH|].
  destruct (Bool.eqb (isWhiteSpace c) w'); simpl; by rewrite <- IH.
Qed.

Lemma replaceWhitespaceRuns_true s :
  replaceWhitespaceRuns true s = replaceWhitespaceRuns false (dropWhile isWhiteSpace s).
Proof.
  induction s as [|c s IH]; simpl; [done|].
  destruct (isWhiteSpace c) eqn:Hc; simpl; [done|]. by rewrite Hc.
Qed.

(** The runs of a string that starts with white space. *)
Lemma runs_whitespace c s :
  isWhiteSpace c = true ->
  exists r, runs (String c s) = (true, r) :: runs (dropWhile isWhiteSpace s) /\
            match runs (dropWhile isWhiteSpace s) with
            | (true, _) :: _ => False
            | _ => True
            end.
Proof.
  revert c. induction s as [|c' s IH]; intros c Hc; simpl; rewrite Hc.
  - by exists (String c "").
  - destruct (isWhiteSpace c') eqn:Hc'.
    + destruct (IH c' Hc') as (r & Hr & Hhead). simpl in Hr. rewrite Hc' in Hr.
      rewrite Hr. simpl. exists (String c r). split; [done|exact Hhead].
    + destruct (runs s) as [|[w' r] rest] eqn:Hs; simpl; rewrite ?Hc', ?Hs; simpl.
      * by exists (String c "").
      * destruct w'; simpl; by exists (String c "").
Qed.

Lemma runs_collapsed s :
  runs (replaceWhitespaceRuns false s) = map collapseRun (runs s) /\
  runs (String " " (replaceWhitespaceRuns true s)) =
    (true, " ") :: map collapseRun (runs (dropWhile isWhiteSpace s)).
Proof.
  induction s as [|c s [IHf IHt]]; [done|].
  assert (Hother : isWhiteSpace c = false ->
    runs (String c (replaceWhitespaceRuns false s)) = map collapseRun (runs (String c s))).
  { intros Hc. simpl. rewrite Hc, IHf.
    destruct (runs s) as [|[[] r] rest]; simpl; done. }
  split.
  - cbn [replaceWhitespaceRuns]. destruct (isWhiteSpace c) eqn:Hc; [|by apply Hother].
    rewrite IHt. destruct (runs_whitespace c s Hc) as (r & -> & _). done.
  - cbn [replaceWhitespaceRuns dropWhile]. destruct (isWhiteSpace c) eqn:Hc; [done|].
    change (runs (String " " ?x)) with
      (match runs x with
       | (w', r) :: rest =>
           if Bool.eqb true w' then (true, String " " r) :: rest
           else (true, " ") :: (w', r) :: rest
       | [] => [(true, " ")]
       end).
    rewrite Hother by done. simpl. rewrite Hc.
    destruct (runs s) as [|[[] r] rest]; simpl; done.
Qed.

Lemma collapseRun_idemp r : collapseRun (collapseRun r) = collapseRun r.
Proof. by destruct r as [[] r]. Qed.

Lemma replaceWhitespaceRuns_idemp s :
  replaceWhitespaceRuns false (replaceWhitespaceRuns false s) =
  replaceWhitespaceRuns false s.
Proof.
  rewrite <- (unruns_runs (replaceWhitespaceRuns false (replaceWhitespaceRuns false s))).
  rewrite <- (unruns_runs (replaceWhitespaceRuns false s)) at 2.
  f_equal. rewrite !(proj1 (runs_collapsed _)), map_map.
  apply map_ext. intros r. apply collapseRun_idemp.
Qed.

Lemma replaceNewlines_idemp s : replaceNewlines (replaceNewlines s) = replaceNewlines s.
Proof.
  induction s as [|c s IH]; simpl; [done|]. rewrite IH. f_equal.
  repeat case_bool_decide; done.
Qed.

(** ** SVG paths: the pass *)

Section FixSvgPathsFacts.
Variable replace : string -> string.
Hypothesis replace_idemp : forall v, replace (replace v) = replace v.

Lemma mapM_lookup {A B} (f : A -> result B) (l : list A) : forall l' i x,
  mapM f l = Ok l' -> l !! i = Some x ->
  exists y, f x = Ok y /\ l' !! i = Some y.
Proof.
  induction l as [|a l IH]; intros l' i x; simpl; [done|].
  destruct (f a) as [b|e] eqn:Ha; simpl; [|done].
  destruct (mapM f l) as [bs|e] eqn:Hl; simpl; [|done].
  intros [= <-]. destruct i as [|i]; simpl.
  - intros [= <-]. eauto.
  - by apply IH.
Qed.

Lemma mapM_fixed {A} (f : A -> result A) (l : list A) : forall l',
  Forall (fun x => forall y, f x = Ok y -> f y = Ok y) l ->
  mapM f l = Ok l' -> mapM f l' = Ok l'.
Proof.
  induction l as [|a l IH]; intros l' Hall; simpl; [by intros [= <-]|].
  inversion Hall as [|? ? Ha Hl]; subst.
  destruct (f a) as [b|e] eqn:Hfa; simpl; [|done].
  destruct (mapM f l) as [bs|e] eqn:Hfl; simpl; [|done].
  intros [= <-]. simpl. by rewrite (Ha b), (IH bs).
Qed.

Lemma fixSvgPathsWith_path d cs :
  isPathNode (node d None) = true ->
  fixSvgPathsWith replace (node d cs) = d' ← fixPath replace d; Ok (node d' cs).
Proof.
  intros H. destruct cs; simpl; rewrite (isPathNode_data (node d _)); simpl;
    by rewrite H.
Qed.

Lemma fixSvgPathsWith_parent d l :
  isPathNode (node d None) = false ->
  fixSvgPathsWith replace (node d (Some l)) =
  l' ← mapM (fixSvgPathsWith replace) l; Ok (node d (Some l')).
Proof. intros H. simpl. rewrite (isPathNode_data (node d _)); simpl. by rewrite H. Qed.

Lemma fixSvgPathsWith_leaf d :
  isPathNode (node d None) = false ->
  fixSvgPathsWith replace (node d None) = Ok (node d None).
Proof. intros H. simpl. by rewrite H. Qed.

(** The assignment to [d]; an empty [d] is left alone. *)
Lemma fixPath_d tagName properties v :
  properties !! "d" = Some (PStr v) ->
  fixPath replace (element tagName (Some properties)) =
  Ok (element tagName
        (Some (<["d" := PStr (if truthy v then replace v else v)]> properties))).
Proof.
  intros Hd. simpl. rewrite Hd. destruct (truthy v); [done|].
  by rewrite insert_id.
Qed.

Lemma fixPath_tagName d d' :
  fixPath replace d = Ok d' ->
  isPathNode (node d' None) = isPathNode (node d None).
Proof.
  destruct d as [|tagName [ps|]| | |]; simpl; try by intros [= <-].
  destruct (ps !! "d") as [[v|l]|]; try by intros [= <-].
  destruct (truthy v); by intros [= <-].
Qed.

Lemma fixPath_fixed d d' :
  fixPath replace d = Ok d' -> fixPath replace d' = Ok d'.
Proof.
  destruct d as [|tagName [ps|]| | |]; simpl; try by intros [= <-].
  destruct (ps !! "d") as [[v|l]|] eqn:Hd; try done.
  - destruct (truthy v) eqn:Hv; intros [= <-]; simpl.
    + rewrite lookup_insert_eq.
      destruct (truthy (replace v)); [|done].
      by rewrite replace_idemp, insert_insert_eq.
    + by rewrite Hd, Hv.
  - intros [= <-]. simpl. by rewrite Hd.
Qed.

(** A second run changes nothing. *)
Lemma fixSvgPathsWith_fixed : forall t t',
  fixSvgPathsWith replace t = Ok t' -> fixSvgPathsWith replace t' = Ok t'.
Proof.
  induction t as [d|d cs IH] using Node_ind'; intros t'.
  - destruct (isPathNode (node d None)) eqn:Hp.
    + rewrite fixSvgPathsWith_path by done.
      destruct (fixPath replace d) as [d'|e] eqn:Hd; simpl; [|done].
      intros [= <-]. rewrite fixSvgPathsWith_path by (by rewrite (fixPath_tagName d)).
      by rewrite (fixPath_fixed d d').
    + rewrite fixSvgPathsWith_leaf by done. intros [= <-].
      by apply fixSvgPathsWith_leaf.
  - destruct (isPathNode (node d None)) eqn:Hp.
    + rewrite fixSvgPathsWith_path by done.
      destruct (fixPath replace d) as [d'|e] eqn:Hd; simpl; [|done].
      intros [= <-]. rewrite fixSvgPathsWith_path by (by rewrite (fixPath_tagName d)).
      by rewrite (fixPath_fixed d d').
    + rewrite fixSvgPathsWith_parent by done.
      destruct (mapM (fixSvgPathsWith replace) cs) as [l'|e] eqn:Hl; simpl; [|done].
      intros [= <-]. rewrite fixSvgPathsWith_parent by done.
      by rewrite (mapM_fixed _ cs l').
Qed.

Lemma fixSvgPathsWith_twice t :
  fixSvgPathsWith replace t ≫= fixSvgPathsWith replace = fixSvgPathsWith replace t.
Proof.
  destruct (fixSvgPathsWith replace t) as [t'|e] eqn:Ht; simpl; [|done].
  by apply (fixSvgPathsWith_fixed t).
Qed.

(** Down to a position with no path element above it the pass keeps the
    positions, and the node there is the pass applied to the node of the
    input. *)
Lemma subtree_fixSvgPathsWith q : forall t t' n,
  fixSvgPathsWith replace t = Ok t' -> noPathAbove t q = true ->
  subtree t q = Some n ->
  exists n', fixSvgPathsWith replace n = Ok n' /\ subtree t' q = Some n'.
Proof.
  induction q as [|i q IH]; intros t t' n Ht; simpl.
  - intros _ [= <-]. eauto.
  - intros [Hp Hc]%andb_prop. apply negb_true_iff in Hp.
    destruct t as [d [l|]]; [|done].
    change (childrenOf (node d (Some l))) with l in *.
    rewrite isPathNode_data in Hp; cbn [data] in Hp.
    rewrite fixSvgPathsWith_parent in Ht by done.
    destruct (mapM (fixSvgPathsWith replace) l) as [l'|e] eqn:Hl; simpl in Ht; [|done].
    injection Ht as <-. change (childrenOf (node d (Some l'))) with l'.
    destruct (l !! i) as [c|] eqn:Hi; simpl; [|done].
    destruct (mapM_lookup _ _ _ _ _ Hl Hi) as (c' & Hc' & ->). simpl.
    intros Hn. by apply (IH c c' n).
Qed.

Lemma subtree_fixSvgPathsWith_path t t' q tagName properties cs v :
  fixSvgPathsWith replace t = Ok t' -> noPathAbove t q = true ->
  subtree t q = Some (node (element tagName (Some properties)) cs) ->
  tagName = "path" -> properties !! "d" = Some (PStr v) ->
  subtree t' q =
    Some (node (element "path"
                  (Some (<["d" := PStr (if truthy v then replace v else v)]> properties)))
               cs).
Proof.
  intros Ht Habove Hq -> Hd.
  destruct (subtree_fixSvgPathsWith q t t' _ Ht Habove Hq) as (n' & Hn' & ->).
  rewrite fixSvgPathsWith_path in Hn' by done.
  rewrite (fixPath_d "path" properties v Hd) in Hn'. simpl in Hn'. congruence.
Qed.
End FixSvgPathsFacts.

Lemma replace_or_keep (replace : string -> string) v :
  replace "" = "" -> (if truthy v then replace v else v) = replace v.
Proof. intros H. by destruct v. Qed.

(** C7, as amended.  In [utils/markdown.ts], for every path element that is
    not inside another path element and has a string [d], the pass replaces
    every maximal run of white space in [d] by exactly one space and keeps
    every other run; the [d] of the example becomes "M10 10 L20 20".  In
    the older copy of the file the pass replaces every line feed by a space
    and nothing else.  In both, a second run of the pass gives what the
    first run gave. *)
Theorem fixSvgPaths_collapses_runs :
  (forall t t' q properties cs v,
     fixSvgPaths t = Ok t' ->
     subtree t q = Some (node (element "path" (Some properties)) cs) ->
     properties !! "d" = Some (PStr v) ->
     noPathAbove t q = true ->
     subtree t' q =
       Some (node (element "path"
                     (Some (<["d" := PStr (replaceWhitespaceRuns false v)]> properties)))
                  cs)) /\
  (forall v, runs (replaceWhitespaceRuns false v) = map collapseRun (runs v)) /\
  replaceWhitespaceRuns false sample_d = "M10 10 L20 20" /\
  (forall t, fixSvgPaths t ≫= fixSvgPaths = fixSvgPaths t) /\
  (forall t t' q properties cs v,
     fixSvgPaths_old t = Ok t' ->
     subtree t q = Some (node (element "path" (Some properties)) cs) ->
     properties !! "d" = Some (PStr v) ->
     noPathAbove t q = true ->
     subtree t' q =
       Some (node (element "path"
                     (Some (<["d" := PStr (replaceNewlines v)]> properties)))
                  cs)) /\
  (forall t, fixSvgPaths_old t ≫= fixSvgPaths_old = fixSvgPaths_old t).
Proof.
  split_and!.
  - intros t t' q properties cs v Ht Hq Hd Habove.
    rewrite <- (replace_or_keep (replaceWhitespaceRuns false) v eq_refl).
    by eapply subtree_fixSvgPathsWith_path.
  - intros v. apply runs_collapsed.
  - reflexivity.
  - intros t. apply fixSvgPathsWith_twice, replaceWhitespaceRuns_idemp.
  - intros t t' q properties cs v Ht Hq Hd Habove.
    rewrite <- (replace_or_keep replaceNewlines v eq_refl).
    by eapply subtree_fixSvgPathsWith_path.
  - intros t. apply fixSvgPathsWith_twice, replaceNewlines_idemp.
Qed.

Lemma fixSvgPaths_collapses_runs_witness :
  fixSvgPaths (icon sample_d) = Ok (icon "M10 10 L20 20") /\
  subtree (icon "M10 10 L20 20") [0] =
    Some (node (element "path"
                  (Some (<["d" := PStr (replaceWhitespaceRuns false sample_d)]>
                           {[ "d" := PStr sample_d ]})))
               (Some [])).
Proof.
  assert (H : fixSvgPaths (icon sample_d) = Ok (icon "M10 10 L20 20"))
    by (vm_compute; reflexivity).
  split; [exact H|].
  apply (proj1 fixSvgPaths_collapses_runs (icon sample_d) (icon "M10 10 L20 20") [0]
           {[ "d" := PStr sample_d ]} (Some []) sample_d H);
    [reflexivity | apply lookup_singleton_eq | reflexivity].
Defined.

(** C7, as stated, fails twice: the older copy of the pass leaves the runs
    of spaces of the example in place, and the pass of [utils/markdown.ts]
    does not reach a path element inside a path element. *)
Lemma fixSvgPaths_not_every_run :
  fixSvgPaths_old (icon sample_d) <> Ok (icon "M10 10 L20 20") /\
  (fixSvgPaths_old (icon sample_d) = Ok (icon "M10 10    L20   20")) /\
  (exists t', fixSvgPaths nested_paths = Ok t' /\
              subtree t' [0] = subtree nested_paths [0] /\
              subtree nested_paths [0] =
                Some (node (element "path" (Some {[ "d" := PStr "L1  1" ]})) (Some []))).
Proof.
  assert (H : fixSvgPaths_old (icon sample_d) = Ok (icon "M10 10    L20   20"))
    by (vm_compute; reflexivity).
  split_and!.
  - rewrite H. discriminate.
  - exact H.
  - eexists. split_and!; [vm_compute; reflexivity | reflexivity..].
Qed.

(** ** Image attributes *)

Example parseTitle_pairs :
  parseTitle "#width=300;height=200" =
  Ok {[ "width" := PStr "300"; "height" := PStr "200" ]}.
Proof. vm_compute. reflexivity. Qed.

Example imageAttributes_pairs :
  imageAttributes (image "#width=300; height = 200") =
  Ok (node root (Some [
        node (element "p" None) (Some [
          node (element "img"
                  (Some {[ "src" := PStr "/a.png";
                           "title" := PStr "#width=300; height = 200";
                           "width" := PStr "300"; "height" := PStr "200" ]}))
               None])])).
Proof. vm_compute. reflexivity. Qed.

(** A piece without an equals sign has no value to trim. *)
Lemma trimEntry_no_value piece :
  trimEntry [piece] = Throw (TypeError "Cannot read properties of undefined (reading 'trim')").
Proof. reflexivity. Qed.

Lemma trimEntry_throws piece e :
  trimEntry piece = Throw e ->
  e = TypeError "Cannot read properties of undefined (reading 'trim')".
Proof. destruct piece as [|key [|val rest]]; simpl; congruence. Qed.

Lemma split_single sep s :
  (forall c, c ∈ list_ascii_of_string s -> c <> sep) -> split sep s = [s].
Proof.
  induction s as [|c s IH]; simpl; [done|]. intros H.
  rewrite bool_decide_eq_false_2 by (apply H; left).
  rewrite IH; [done|]. intros c' Hc'. apply H. by right.
Qed.

Lemma mapM_throws {A B} (f : A -> result B) (l : list A) x e :
  x ∈ l -> f x = Throw e -> (forall y e', f y = Throw e' -> e' = e) ->
  mapM f l = Throw e.
Proof.
  intros Hx Hfx Hsame. induction l as [|a l IH]; [by apply elem_of_nil in Hx|].
  simpl. destruct (f a) as [b|e'] eqn:Ha; simpl.
  - apply elem_of_cons in Hx as [->|Hx]; [congruence|]. by rewrite IH.
  - by rewrite (Hsame a e').
Qed.

(** Every title with a piece that has no equals sign ends the pass: an
    empty piece, as a doubled or a trailing semicolon leaves it, is one. *)
Lemma parseTitle_throws title piece :
  piece ∈ split ";" (dropFirst title) ->
  (forall c, c ∈ list_ascii_of_string piece -> c <> "="%char) ->
  parseTitle title =
    Throw (TypeError "Cannot read properties of undefined (reading 'trim')").
Proof.
  intros Hin Hno. unfold parseTitle.
  rewrite (mapM_throws trimEntry _ (split "=" piece)
             (TypeError "Cannot read properties of undefined (reading 'trim')")).
  - done.
  - apply list_elem_of_In, in_map, list_elem_of_In, Hin.
  - by rewrite split_single.
  - apply trimEntry_throws.
Qed.

Example parseTitle_trailing_semicolon :
  parseTitle "#width=300;" =
    Throw (TypeError "Cannot read properties of undefined (reading 'trim')").
Proof. vm_compute. reflexivity. Qed.

(** C2.  The title "#a=1;;b=2" does not yield the attributes a and b: the
    empty piece between the two semicolons splits into a key without a
    value, the value is trimmed before the entries with an empty key are
    dropped, and the pass ends with a TypeError. *)
Theorem imageAttributes_empty_segment_throws :
  parseTitle "#a=1;;b=2" =
    Throw (TypeError "Cannot read properties of undefined (reading 'trim')") /\
  imageAttributes (image "#a=1;;b=2") =
    Throw (TypeError "Cannot read properties of undefined (reading 'trim')").
Proof. split; vm_compute; reflexivity. Qed.

(** ** Embedded media *)

Section OEmbedFacts.
Variable World : Type.
Variable getOEmbed : string -> World -> result (option OEmbed) * World.
Variable parseHtml : option string -> result Node.
Variable aspectOf : Node -> string.

Local Abbreviation pass := (replaceFreeLinkWithOEmbed World getOEmbed parseHtml aspectOf).
Local Abbreviation series := (mapSeries World getOEmbed parseHtml aspectOf).

Lemma pass_root l w :
  pass (node root (Some l)) w =
  let '(r, w') := series l w in (l' ← r; Ok (node root (Some l')), w').
Proof. reflexivity. Qed.

Lemma freeLink_paragraph n href : freeLink n = Some href -> isPNode n = true.
Proof. unfold freeLink. by destruct (isPNode n). Qed.

Lemma pass_other n w :
  isPNode n = true ->
  pass n w =
  match freeLink n with
  | None => (Ok n, w)
  | Some href =>
      match getOEmbed href w with
      | (Ok None, w') => (Ok n, w')
      | (Ok (Some oEmbed), w') => (Ok (card parseHtml aspectOf href oEmbed), w')
      | (Throw e, w') => (Throw e, w')
      end
  end.
Proof.
  destruct n as [[|tagName ps| | |] cs]; try discriminate. intros _.
  by destruct cs.
Qed.

Lemma series_app pre : forall l w0,
  series (pre ++ l) w0 =
  match series pre w0 with
  | (Ok pre', w) =>
      match series l w with
      | (Ok l', w2) => (Ok (pre' ++ l'), w2)
      | (Throw e, w2) => (Throw e, w2)
      end
  | (Throw e, w) => (Throw e, w)
  end.
Proof.
  induction pre as [|c pre IH]; intros l w0; simpl.
  - by destruct (series l w0) as [[?|?] ?].
  - destruct (pass c w0) as [[c'|e] w1]; [|done].
    rewrite IH. destruct (series pre w1) as [[pre'|e] w]; [|done].
    by destruct (series l w) as [[?|?] ?].
Qed.

Lemma series_length l : forall l' w w',
  series l w = (Ok l', w') -> length l' = length l.
Proof.
  induction l as [|c l IH]; intros l' w w'; simpl; [by intros [= <- _]|].
  destruct (pass c w) as [[c'|e] w1]; [|done].
  destruct (series l w1) as [[r|e] w2] eqn:Hl; [|done].
  intros [= <- _]. simpl. f_equal. by eapply IH.
Qed.

Lemma freeLink_bareLink properties anchorProperties href :
  href <> "" ->
  freeLink (bareLink properties anchorProperties href) = Some href.
Proof.
  intros Hne. unfold freeLink, bareLink. simpl.
  rewrite lookup_insert_eq. simpl. rewrite bool_decide_eq_true_2 by done.
  by destruct href.
Qed.

(** C8.  When the lookup for the [href] of a qualifying paragraph answers
    with nothing, the pass returns the paragraph as it is and raises no
    error; as a child of the root the paragraph keeps its position, and
    what the pass returns for the root is decided by the children after
    it. *)
Theorem replaceFreeLinkWithOEmbed_missing_metadata
    (n : Node) (href : string) (w w' : World) :
  freeLink n = Some href ->
  getOEmbed href w = (Ok None, w') ->
  pass n w = (Ok n, w') /\
  forall pre pre' post w0,
    series pre w0 = (Ok pre', w) ->
    length pre' = length pre /\
    pass (node root (Some (pre ++ n :: post))) w0 =
    match series post w' with
    | (Ok post', w'') => (Ok (node root (Some (pre' ++ n :: post'))), w'')
    | (Throw e, w'') => (Throw e, w'')
    end.
Proof.
  intros Hfree Hnone.
  assert (Hn : pass n w = (Ok n, w')).
  { rewrite pass_other by (by eapply freeLink_paragraph). by rewrite Hfree, Hnone. }
  split; [done|]. intros pre pre' post w0 Hpre.
  split; [by eapply series_length|].
  rewrite pass_root, series_app, Hpre.
  change (series (n :: post) w) with
    (match pass n w with
     | (Ok c', w1) =>
         match series post w1 with
         | (Ok r, w2) => (Ok (c' :: r), w2)
         | (Throw e, w2) => (Throw e, w2)
         end
     | (Throw e, w1) => (Throw e, w1)
     end).
  rewrite Hn. by destruct (series post w') as [[post'|e] w''].
Qed.
End OEmbedFacts.

Lemma replaceFreeLinkWithOEmbed_missing_metadata_witness :
  replaceFreeLinkWithOEmbed nat knowsNothing neverParses defaultAspect
    (bareLink None ∅ "https://x.test/") 0 =
  (Ok (bareLink None ∅ "https://x.test/"), 1) /\
  replaceFreeLinkWithOEmbed nat knowsNothing neverParses defaultAspect
    (node root (Some [node (element "h1" None) (Some []);
                      bareLink None ∅ "https://x.test/";
                      bareLink None ∅ "https://y.test/"])) 0 =
  (Ok (node root (Some [node (element "h1" None) (Some []);
                        bareLink None ∅ "https://x.test/";
                        bareLink None ∅ "https://y.test/"])), 2).
Proof.
  assert (Hfree : freeLink (bareLink None ∅ "https://x.test/") = Some "https://x.test/")
    by (by apply freeLink_bareLink).
  split.
  - apply (proj1 (replaceFreeLinkWithOEmbed_missing_metadata nat knowsNothing
             neverParses defaultAspect _ "https://x.test/" 0 1 Hfree eq_refl)).
  - eapply eq_trans.
    + exact (proj2 (proj2 (replaceFreeLinkWithOEmbed_missing_metadata nat knowsNothing
               neverParses defaultAspect _ "https://x.test/" 0 1 Hfree eq_refl)
               [node (element "h1" None) (Some [])]
               [node (element "h1" None) (Some [])]
               [bareLink None ∅ "https://y.test/"] 0 eq_refl)).
    + vm_compute. reflexivity.
Defined.

(** With metadata the paragraph is replaced: a photo gives a figure with a
    caption that cites the address and holds the title. *)
Example replaceFreeLinkWithOEmbed_photo :
  let photo := {| oembed_type := "photo"; oembed_html := None;
                  oembed_title := Some "T";
                  thumbnail_url := Some "http://x/y.png";
                  thumbnail_width := Some 100%Z; thumbnail_height := Some 50%Z |} in
  replaceFreeLinkWithOEmbed unit (fun _ w => (Ok (Some photo), w)) neverParses
    defaultAspect (bareLink None ∅ "http://x/") tt =
  (Ok (node (element "figure" (Some {[ "class" := PStr "oembed" ]})) (Some [
         node (element "figcaption" None) (Some [
           node (element "cite" None) (Some [
             node (element "a" (Some {[ "href" := PStr "http://x/"; "title" := PStr "T" ]}))
                  (Some [node (text "http://x/") None])]);
           node (element "p" (Some {[ "class" := PStr "title" ]}))
                (Some [node (text "T") None])])])), tt).
Proof. vm_compute. reflexivity. Qed.

(** * Further properties *)

(** ** Visitors without state *)

Section VisitUnit.
Variables (test : Node -> bool) (testd : NodeData -> bool).
Variable visitor : NodeData -> unit -> result (NodeData * unit).
Hypothesis test_data : forall n, test n = testd (data n).

Lemma visit_node d cs s :
  visit test visitor (node d cs) s =
  '(d', s1) ← (if testd d then visitor d s else Ok (d, s));
  match cs with
  | None => Ok (node d' None, s1)
  | Some l => '(l', s2) ← visitAll test visitor l s1; Ok (node d' (Some l'), s2)
  end.
Proof.
  pose proof (test_data (node d cs)) as H. simpl in H. rewrite <- H. by destruct cs.
Qed.

Lemma visitAll_cons c l s :
  visitAll test visitor (c :: l) s =
  '(c', s') ← visit test visitor c s;
  '(r', s'') ← visitAll test visitor l s';
  Ok (c' :: r', s'').
Proof. done. Qed.

Lemma visitAll_lookup l : forall l' i c,
  visitAll test visitor l tt = Ok (l', tt) -> l !! i = Some c ->
  exists c', visit test visitor c tt = Ok (c', tt) /\ l' !! i = Some c'.
Proof.
  induction l as [|a l IH]; intros l' i c; [done|].
  rewrite visitAll_cons.
  destruct (visit test visitor a tt) as [[a' []]|e] eqn:Ha; simpl; [|done].
  destruct (visitAll test visitor l tt) as [[r []]|e] eqn:Hl; simpl; [|done].
  intros [= <-]. destruct i as [|i]; simpl.
  - intros [= <-]. eauto.
  - by apply IH.
Qed.

(** What a run that returns has done at every position: the visitor was
    applied to the fields of the node there when the node passes the test,
    and the node has as many children as before. *)
Lemma visit_unit_positions q : forall t t' n,
  visit test visitor t tt = Ok (t', tt) -> subtree t q = Some n ->
  exists n',
    subtree t' q = Some n' /\
    (if testd (data n) then visitor (data n) tt = Ok (data n', tt)
     else data n' = data n) /\
    length (childrenOf n') = length (childrenOf n).
Proof.
  induction q as [|i q IH]; intros t t' n Ht; simpl.
  - intros [= <-]. exists t'. split; [done|].
    destruct t as [d cs]. rewrite visit_node in Ht. simpl.
    assert (Hlen : forall l l', visitAll test visitor l tt = Ok (l', tt) ->
                                length l' = length l).
    { induction l as [|a l IHl]; intros l'; [by intros [= <-]|].
      rewrite visitAll_cons.
      destruct (visit test visitor a tt) as [[a' []]|e]; simpl; [|done].
      destruct (visitAll test visitor l tt) as [[r []]|e]; simpl; [|done].
      intros [= <-]. simpl. f_equal. by apply IHl. }
    destruct (testd d).
    + destruct (visitor d tt) as [[d' []]|e]; simpl in Ht; [|done].
      destruct cs as [l|]; [|by injection Ht as <-].
      destruct (visitAll test visitor l tt) as [[l' []]|e] eqn:Hl; simpl in Ht; [|done].
      injection Ht as <-. split; [done|]. by apply Hlen.
    + simpl in Ht. destruct cs as [l|]; [|by injection Ht as <-].
      destruct (visitAll test visitor l tt) as [[l' []]|e] eqn:Hl; simpl in Ht; [|done].
      injection Ht as <-. split; [done|]. by apply Hlen.
  - destruct t as [d [l|]]; [|done].
    change (childrenOf (node d (Some l))) with l.
    rewrite visit_node in Ht.
    destruct (if testd d then visitor d tt else Ok (d, tt)) as [[d' []]|e];
      simpl in Ht; [|done].
    destruct (visitAll test visitor l tt) as [[l' []]|e] eqn:Hl; simpl in Ht; [|done].
    injection Ht as <-. change (childrenOf (node d' (Some l'))) with l'.
    destruct (l !! i) as [c|] eqn:Hi; simpl; [|done].
    destruct (visitAll_lookup _ _ _ _ Hl Hi) as (c' & Hc' & ->). simpl.
    by apply IH.
Qed.

(** A run returns exactly when the visitor returns on the fields of every
    node that passes the test. *)
Lemma visit_unit_returns : forall t,
  (exists t', visit test visitor t tt = Ok (t', tt)) <->
  (forall d, d ∈ preorder t -> testd d = true -> exists d', visitor d tt = Ok (d', tt)).
Proof.
  induction t as [d|d cs IH] using Node_ind'.
  - rewrite visit_node. simpl. split.
    + intros [t' Ht] d0 ->%list_elem_of_singleton Hd. rewrite Hd in Ht.
      destruct (visitor d tt) as [[d' []]|e]; [eauto|done].
    + intros H. destruct (testd d) eqn:Hd; [|by eexists].
      destruct (H d ltac:(left) Hd) as [d' ->]. by eexists.
  - rewrite visit_node.
    assert (Hall : (exists l', visitAll test visitor cs tt = Ok (l', tt)) <->
      (forall d0, d0 ∈ flat_map preorder cs -> testd d0 = true ->
                  exists d', visitor d0 tt = Ok (d', tt))).
    { induction IH as [|c cs Hc _ IHcs].
      - simpl. split; [intros _ d0 []%elem_of_nil|by eexists].
      - rewrite visitAll_cons. cbn [flat_map]. split.
        + intros [l' Hl] d0 Hd0.
          destruct (visit test visitor c tt) as [[c' []]|e] eqn:Hvc; simpl in Hl; [|done].
          destruct (visitAll test visitor cs tt) as [[r []]|e] eqn:Hvr; simpl in Hl; [|done].
          apply elem_of_app in Hd0 as [Hd0|Hd0].
          * apply (proj1 Hc); eauto.
          * apply (proj1 IHcs); eauto.
        + intros H.
          destruct (proj2 Hc) as [c' ->].
          { intros d0 Hd0. apply H, elem_of_app. by left. }
          cbn [mbind result_bind].
          destruct (proj2 IHcs) as [r ->].
          { intros d0 Hd0. apply H, elem_of_app. by right. }
          by eexists. }
    split.
    + intros [t' Ht] d0 Hd0 Htest. simpl in Hd0.
      apply elem_of_cons in Hd0 as [->|Hd0].
      * rewrite Htest in Ht. destruct (visitor d tt) as [[d' []]|e]; [eauto|done].
      * destruct (if testd d then visitor d tt else Ok (d, tt)) as [[d' []]|e];
          simpl in Ht; [|done].
        destruct (visitAll test visitor cs tt) as [[l' []]|e] eqn:Hl; simpl in Ht; [|done].
        apply (proj1 Hall); eauto.
    + intros H.
      assert (Hd : exists d', (if testd d then visitor d tt else Ok (d, tt)) = Ok (d', tt)).
      { destruct (testd d) eqn:Hd; [|by eexists].
        destruct (H d ltac:(left) Hd) as [d' ->]. by eexists. }
      destruct Hd as [d' ->]. cbn [mbind result_bind].
      destruct (proj2 Hall) as [l' ->].
      { intros d0 Hd0. apply H. simpl. by right. }
      by eexists.
Qed.

(** A run over a tree on whose nodes the visitor changes nothing returns
    the tree. *)
Lemma visit_unit_same : forall t,
  (forall d, d ∈ preorder t -> testd d = true -> visitor d tt = Ok (d, tt)) ->
  visit test visitor t tt = Ok (t, tt).
Proof.
  induction t as [d|d cs IH] using Node_ind'; intros H; rewrite visit_node.
  - destruct (testd d) eqn:Hd; [|done]. by rewrite (H d ltac:(left) Hd).
  - assert (Hd : (if testd d then visitor d tt else Ok (d, tt)) = Ok (d, tt)).
    { destruct (testd d) eqn:Hd; [|done]. by rewrite (H d ltac:(left) Hd). }
    rewrite Hd. cbn [mbind result_bind].
    assert (Hl : visitAll test visitor cs tt = Ok (cs, tt)).
    { assert (H' : forall d0, d0 ∈ flat_map preorder cs -> testd d0 = true ->
                              visitor d0 tt = Ok (d0, tt)).
      { intros d0 Hd0. apply H. simpl. by right. }
      clear H Hd. induction IH as [|c cs Hc _ IHcs]; [done|].
      rewrite visitAll_cons. rewrite Hc; cbn [mbind result_bind].
      - rewrite IHcs; [done|]. intros d0 Hd0. apply H'. simpl. apply elem_of_app. by right.
      - intros d0 Hd0. apply H'. simpl. apply elem_of_app. by left. }
    by rewrite Hl.
Qed.

(** When the visitor changes nothing on what it returned, a second run
    changes nothing. *)
Lemma visit_unit_fixed : forall t t',
  (forall d d', testd d = true -> visitor d tt = Ok (d', tt) ->
                testd d' = true /\ visitor d' tt = Ok (d', tt)) ->
  visit test visitor t tt = Ok (t', tt) ->
  visit test visitor t' tt = Ok (t', tt).
Proof.
  intros t t' Hfix. revert t'.
  assert (Hdata : forall d d',
    (if testd d then visitor d tt else Ok (d, tt)) = Ok (d', tt) ->
    (if testd d' then visitor d' tt else Ok (d', tt)) = Ok (d', tt)).
  { intros d d'. destruct (testd d) eqn:Hd.
    - intros Hv. destruct (Hfix d d' Hd Hv) as [-> ->]. done.
    - intros [= <-]. by rewrite Hd. }
  induction t as [d|d cs IH] using Node_ind'; intros t'; rewrite visit_node.
  - destruct (if testd d then visitor d tt else Ok (d, tt)) as [[d' []]|e] eqn:Hd;
      simpl; [|done].
    intros [= <-]. rewrite visit_node, (Hdata d d' Hd). done.
  - destruct (if testd d then visitor d tt else Ok (d, tt)) as [[d' []]|e] eqn:Hd;
      simpl; [|done].
    destruct (visitAll test visitor cs tt) as [[l' []]|e] eqn:Hl; simpl; [|done].
    intros [= <-]. rewrite visit_node, (Hdata d d' Hd). cbn [mbind result_bind].
    assert (Hl' : visitAll test visitor l' tt = Ok (l', tt)).
    { clear Hd. revert l' Hl. induction IH as [|c cs Hc _ IHcs]; intros l'.
      - by intros [= <-].
      - rewrite visitAll_cons.
        destruct (visit test visitor c tt) as [[c' []]|e] eqn:Hvc; simpl; [|done].
        destruct (visitAll test visitor cs tt) as [[r []]|e] eqn:Hvr; simpl; [|done].
        intros [= <-]. rewrite visitAll_cons, (Hc c' eq_refl). cbn [mbind result_bind].
        by rewrite (IHcs r eq_refl). }
    by rewrite Hl'.
Qed.
End VisitUnit.

(** ** Code blocks *)

Section AddDataToCodeBlocksFacts.
Variable toUpperCase : string -> string.
Variable labelText : string.

Local Abbreviation visitor := (addDataToCodeBlock toUpperCase labelText).
Local Abbreviation pass := (addDataToCodeBlocks toUpperCase labelText).

(** The attributes of an element with a language. *)
Local Abbreviation tagged tagName lang properties :=
  (if bool_decide (tagName = "pre")
   then <["aria-label" := PStr (labelText ++ toUpperCase lang)]>
          (<["data-lang" := PStr lang]> properties)
   else <["data-lang" := PStr lang]> properties).

Lemma addDataToCodeBlock_language tagName properties lang :
  languageOf (element tagName (Some properties)) = Some lang ->
  visitor (element tagName (Some properties)) tt =
  Ok (element tagName (Some (tagged tagName lang properties)), tt).
Proof.
  unfold languageOf, addDataToCodeBlock, isPreNode, isCodeNode, isElementNamed.
  change (String.length "language-") with 9. cbn -[sliceFrom String.prefix].
  destruct (bool_decide (tagName = "pre")) eqn:Hpre,
           (bool_decide (tagName = "code")) eqn:Hcode;
    cbn -[sliceFrom String.prefix]; try done;
    destruct (properties !! "className") as [[?|className]|]; try done;
    destruct (List.find (String.prefix "language-") className) as [found|]; try done;
    destruct (truthy (sliceFrom 9 found)); try done; by intros [= <-].
Qed.

Lemma addDataToCodeBlock_none d :
  languageOf d = None -> stringClassName d = false -> visitor d tt = Ok (d, tt).
Proof.
  destruct d as [|tagName [properties|]| | |]; try done.
  - unfold languageOf, stringClassName, addDataToCodeBlock, isPreNode, isCodeNode,
      isElementNamed.
  change (String.length "language-") with 9. cbn -[sliceFrom String.prefix].
    destruct (bool_decide (tagName = "pre")) eqn:Hpre,
             (bool_decide (tagName = "code")) eqn:Hcode;
    cbn -[sliceFrom String.prefix]; try done;
      destruct (properties !! "className") as [[?|className]|]; try done;
      destruct (List.find (String.prefix "language-") className) as [found|]; try done;
      destruct (truthy (sliceFrom 9 found)); done.
  - intros _ _. unfold addDataToCodeBlock. simpl.
    by destruct (negb _ && negb _).
Qed.

Lemma addDataToCodeBlock_throws d :
  stringClassName d = true ->
  visitor d tt = Throw (TypeError "node.properties.className.find is not a function").
Proof.
  destruct d as [|tagName [properties|]| | |]; try done.
  unfold stringClassName, addDataToCodeBlock, isPreNode, isCodeNode, isElementNamed.
  change (String.length "language-") with 9. cbn -[sliceFrom String.prefix].
  destruct (bool_decide (tagName = "pre")) eqn:Hpre,
           (bool_decide (tagName = "code")) eqn:Hcode;
    cbn -[sliceFrom String.prefix]; try done;
    by destruct (properties !! "className") as [[?|className]|].
Qed.

Lemma languageOf_stringClassName d lang :
  languageOf d = Some lang -> stringClassName d = false.
Proof.
  destruct d as [|tagName [properties|]| | |]; try done.
  unfold languageOf, stringClassName.
  destruct (bool_decide (tagName = "pre") || bool_decide (tagName = "code")); [|done].
  by destruct (properties !! "className") as [[?|?]|].
Qed.

(** The three cases of the visitor. *)
Lemma addDataToCodeBlock_cases d :
  (stringClassName d = true /\
   visitor d tt = Throw (TypeError "node.properties.className.find is not a function")) \/
  (stringClassName d = false /\ languageOf d = None /\ visitor d tt = Ok (d, tt)) \/
  (exists tagName properties lang,
     d = element tagName (Some properties) /\
     languageOf d = Some lang /\
     visitor d tt = Ok (element tagName (Some (tagged tagName lang properties)), tt)).
Proof.
  destruct (stringClassName d) eqn:Hs.
  - left. split; [done|]. by apply addDataToCodeBlock_throws.
  - right. destruct (languageOf d) as [lang|] eqn:Hl.
    + right. destruct d as [|tagName [properties|]| | |]; try done.
      exists tagName, properties, lang. split_and!; try done.
      by apply addDataToCodeBlock_language.
    + left. split_and!; try done. by apply addDataToCodeBlock_none.
Qed.

Lemma languageOf_tagged tagName properties lang :
  languageOf (element tagName (Some properties)) = Some lang ->
  languageOf (element tagName (Some (tagged tagName lang properties))) = Some lang.
Proof.
  unfold languageOf.
  destruct (bool_decide (tagName = "pre") || bool_decide (tagName = "code")); [|done].
  assert (H : tagged tagName lang properties !! "className" = properties !! "className").
  { destruct (bool_decide (tagName = "pre")); by rewrite ?lookup_insert_ne. }
  by rewrite H.
Qed.

Lemma tagged_tagged tagName (properties : Properties) lang :
  tagged tagName lang (tagged tagName lang properties) = tagged tagName lang properties.
Proof.
  destruct (bool_decide (tagName = "pre")).
  - apply map_eq. intros k.
    destruct (decide (k = "aria-label")), (decide (k = "data-lang"));
      by simplify_map_eq.
  - by rewrite insert_insert_eq.
Qed.

Lemma pass_visit t :
  pass t = '(tree', _) ← visit isElement visitor t tt; Ok tree'.
Proof. done. Qed.

Lemma pass_Ok t t' :
  pass t = Ok t' <-> visit isElement visitor t tt = Ok (t', tt).
Proof.
  rewrite pass_visit.
  destruct (visit isElement visitor t tt) as [[t0 []]|e]; simpl; split; congruence.
Qed.

Lemma isElement_data n : isElement n = isElement (node (data n) None).
Proof. by destruct n. Qed.

(** X1.  After a run that returns, every pre or code element with a
    language, at whatever depth, has the language in data-lang; a pre
    element has the label for it in aria-label and a code element keeps the
    aria-label it had; every other attribute is as it was. *)
Theorem addDataToCodeBlocks_language
    (t t' : Node) (q : Path) (tagName : string) (properties : Properties)
    (cs : option (list Node)) (lang : string) :
  pass t = Ok t' ->
  subtree t q = Some (node (element tagName (Some properties)) cs) ->
  languageOf (element tagName (Some properties)) = Some lang ->
  exists (properties' : Properties) (n' : Node),
    subtree t' q = Some n' /\
    data n' = element tagName (Some properties') /\
    properties' !! "data-lang" = Some (PStr lang) /\
    (tagName = "pre" ->
     properties' !! "aria-label" = Some (PStr (labelText ++ toUpperCase lang))) /\
    (tagName = "code" -> properties' !! "aria-label" = properties !! "aria-label") /\
    (forall k, k <> "data-lang" -> k <> "aria-label" ->
               properties' !! k = properties !! k).
Proof.
  intros Ht%pass_Ok Hq Hlang.
  destruct (visit_unit_positions isElement (fun d => isElement (node d None)) visitor
              isElement_data q t t' _ Ht Hq) as (n' & Hq' & Hd & _).
  change (visitor (element tagName (Some properties)) tt = Ok (data n', tt)) in Hd.
  rewrite (addDataToCodeBlock_language _ _ _ Hlang) in Hd.
  injection Hd as Hd.
  exists (tagged tagName lang properties), n'.
  split; [done|]. split; [done|]. split_and!.
  - case_bool_decide; by simplify_map_eq.
  - intros ->. case_bool_decide; by simplify_map_eq.
  - intros ->. case_bool_decide; by simplify_map_eq.
  - intros k Hk1 Hk2. case_bool_decide; by simplify_map_eq.
Qed.

(** X2.  After a run that returns, every position has a node where it had
    one, with as many children; and the fields of a node are as they were
    unless the node is a pre or code element with a language: no other
    node is touched, and so is no element whose first class that starts
    with language- is that word alone, whatever classes follow. *)
Theorem addDataToCodeBlocks_others (t t' : Node) :
  pass t = Ok t' ->
  (forall q n, subtree t q = Some n ->
     exists n', subtree t' q = Some n' /\
                length (childrenOf n') = length (childrenOf n) /\
                (languageOf (data n) = None -> data n' = data n)) /\
  (forall tagName properties rest,
     properties !! "className" = Some (PList ("language-" :: rest)) ->
     visitor (element tagName (Some properties)) tt =
     Ok (element tagName (Some properties), tt)).
Proof.
  intros Ht%pass_Ok. split.
  - intros q n Hq.
    destruct (visit_unit_positions isElement (fun d => isElement (node d None)) visitor
                isElement_data q t t' _ Ht Hq) as (n' & Hq' & Hd & Hlen).
    exists n'. split_and!; [done..|]. intros Hnone.
    destruct (isElement (node (data n) None)) eqn:He; [|done].
    destruct (addDataToCodeBlock_cases (data n)) as [[_ Hv]|[(_ & _ & Hv)|(? & ? & ? & _ & Hl & _)]];
      congruence.
  - intros tagName properties rest Hc. apply addDataToCodeBlock_none.
    + unfold languageOf. rewrite Hc. simpl.
      by destruct (bool_decide (tagName = "pre") || bool_decide (tagName = "code")).
    + unfold stringClassName. rewrite Hc. by rewrite andb_false_r.
Qed.

(** X3.  A second run gives what the first run gave. *)
Theorem addDataToCodeBlocks_fixed (t t' : Node) :
  pass t = Ok t' -> pass t' = Ok t'.
Proof.
  rewrite !pass_Ok.
  apply (visit_unit_fixed isElement (fun d => isElement (node d None)) visitor
           isElement_data).
  intros d d' Hd Hv.
  destruct (addDataToCodeBlock_cases d) as [[_ Hv']|[(_ & _ & Hv')|(tagName & ps & lang & -> & Hl & Hv')]].
  - congruence.
  - rewrite Hv' in Hv. injection Hv as <-. done.
  - rewrite Hv' in Hv. injection Hv as <-. split; [done|].
    rewrite (addDataToCodeBlock_language _ _ lang) by (by apply languageOf_tagged).
    by rewrite tagged_tagged.
Qed.

(** X4.  The pass throws exactly when some pre or code element of the tree
    has a [className] that is a string, and returns otherwise. *)
Theorem addDataToCodeBlocks_returns (t : Node) :
  (exists t', pass t = Ok t') <->
  (forall d, d ∈ preorder t -> stringClassName d = false).
Proof.
  transitivity (exists t', visit isElement visitor t tt = Ok (t', tt)).
  { split; intros [t' Ht]; exists t'; by apply pass_Ok. }
  rewrite (visit_unit_returns isElement (fun d => isElement (node d None)) visitor
             isElement_data).
  split.
  - intros H d Hd. destruct (stringClassName d) eqn:Hs; [|done].
    assert (He : isElement (node d None) = true) by (by destruct d).
    destruct (H d Hd He) as [d' Hd']. rewrite addDataToCodeBlock_throws in Hd' by done.
    done.
  - intros H d Hd _. specialize (H d Hd).
    destruct (addDataToCodeBlock_cases d) as [[? _]|[(_ & _ & Hv)|(? & ? & ? & _ & _ & Hv)]];
      [congruence|eauto..].
Qed.
End AddDataToCodeBlocksFacts.

(** ** Style names *)

(** Induction over a string two code units at a time. *)
Lemma string_ind2 (P : string -> Prop) :
  P "" -> (forall c, P (String c "")) ->
  (forall c l s, P (String l s) -> P s -> P (String c (String l s))) ->
  forall s, P s.
Proof.
  intros H0 H1 H2 s.
  assert (H : P s /\ forall c, P (String c s)); [|by destruct H].
  induction s as [|l s [IHs IHc]]; [by split|].
  split; [apply IHc|]. intros c. by apply H2.
Qed.

Section ToCamelCaseFacts.
Variable letter : ascii -> bool.
Hypothesis upper_not_hyphen : forall l, letter l = true -> upperLetter l <> "-"%char.

Lemma toCamelCaseWith_pair c l s :
  toCamelCaseWith letter (String c (String l s)) =
  if bool_decide (c = "-"%char) && letter l
  then String (upperLetter l) (toCamelCaseWith letter s)
  else String c (toCamelCaseWith letter (String l s)).
Proof. done. Qed.

Lemma hyphenBefore_cons c s :
  hyphenBefore letter (String c s) =
  match s with
  | String l _ => bool_decide (c = "-"%char) && letter l || hyphenBefore letter s
  | EmptyString => false
  end.
Proof. done. Qed.

(** A string in which no hyphen is followed by a letter is returned as it
    is. *)
Lemma toCamelCaseWith_same : forall s,
  hyphenBefore letter s = false -> toCamelCaseWith letter s = s.
Proof.
  induction s as [|c|c l s IHl IHs] using string_ind2; [done..|].
  rewrite hyphenBefore_cons, toCamelCaseWith_pair.
  intros [-> H]%orb_false_elim. by rewrite IHl.
Qed.

Lemma hyphenTriple_cons a b l s :
  hyphenTriple letter (String a (String b (String l s))) =
  bool_decide (a = "-"%char) && bool_decide (b = "-"%char) &&
  letter l && letter (upperLetter l) || hyphenTriple letter (String b (String l s)).
Proof. done. Qed.

Lemma hyphenTriple_tail c s :
  hyphenTriple letter (String c s) = false -> hyphenTriple letter s = false.
Proof.
  destruct s as [|b [|l s]]; try done. rewrite hyphenTriple_cons.
  by intros [_ H]%orb_false_elim.
Qed.

(** Without two hyphens in front of a letter, the result has no hyphen in
    front of a letter; and a letter at its head is the head of the string
    or was made from a hyphen and a letter at the head of the string. *)
Lemma toCamelCaseWith_settled : forall s,
  hyphenTriple letter s = false ->
  hyphenBefore letter (toCamelCaseWith letter s) = false /\
  forall c r, toCamelCaseWith letter s = String c r -> letter c = true ->
    (exists r', s = String c r') \/
    (exists l r', s = String "-" (String l r') /\ letter l = true /\
                  letter (upperLetter l) = true).
Proof.
  induction s as [|c|c l s IHl IHs] using string_ind2.
  - done.
  - intros _. split; [done|]. intros c0 r [= <- <-] _. left. by eexists.
  - intros Ht. rewrite toCamelCaseWith_pair.
    destruct (bool_decide (c = "-"%char) && letter l) eqn:Hm.
    + apply andb_prop in Hm as [Hc%bool_decide_eq_true Hl]. subst c.
      destruct (IHs (hyphenTriple_tail _ _ (hyphenTriple_tail _ _ Ht))) as [Hs _].
      split.
      * rewrite hyphenBefore_cons.
        destruct (toCamelCaseWith letter s) as [|x r] eqn:Hx; [done|].
        rewrite Hs, orb_false_r.
        rewrite bool_decide_eq_false_2 by (by apply upper_not_hyphen). done.
      * intros c0 r [= <- <-] Hu. right. by exists l, s.
    + destruct (IHl (hyphenTriple_tail _ _ Ht)) as [Hstable Hhead].
      split.
      * rewrite hyphenBefore_cons.
        destruct (toCamelCaseWith letter (String l s)) as [|x r] eqn:Hx; [done|].
        rewrite Hstable, orb_false_r.
        destruct (bool_decide (c = "-"%char)) eqn:Hc; [|done]. simpl.
        destruct (letter x) eqn:Hlx; [|done]. exfalso.
        destruct (Hhead x r eq_refl Hlx) as [[r' [= <- <-]]|(l' & r' & [= -> ->] & Hl' & Hu)].
        -- simpl in Hm. congruence.
        -- rewrite hyphenTriple_cons, Hc, Hl', Hu in Ht. done.
      * intros c0 r [= <- <-] _. left. by eexists.
Qed.

Lemma toCamelCaseWith_twice s :
  hyphenTriple letter s = false ->
  toCamelCaseWith letter (toCamelCaseWith letter s) = toCamelCaseWith letter s.
Proof. intros H. by apply toCamelCaseWith_same, toCamelCaseWith_settled. Qed.

Lemma toCamelCaseWith_length : forall s,
  String.length (toCamelCaseWith letter s) <= String.length s.
Proof.
  induction s as [|c|c l s IHl IHs] using string_ind2; [done..|].
  rewrite toCamelCaseWith_pair.
  destruct (bool_decide (c = "-"%char) && letter l); simpl in *; lia.
Qed.
End ToCamelCaseFacts.

Lemma lower_upper l : isLowerLetter l = true -> isLowerLetter (upperLetter l) = false.
Proof. destruct l as [[] [] [] [] [] [] [] []]; vm_compute; congruence. Qed.

Lemma lower_not_hyphen l : isLowerLetter l = true -> upperLetter l <> "-"%char.
Proof. destruct l as [[] [] [] [] [] [] [] []]; vm_compute; congruence. Qed.

Lemma letter_not_hyphen l :
  isLowerLetter l || isUpperLetter l = true -> upperLetter l <> "-"%char.
Proof. destruct l as [[] [] [] [] [] [] [] []]; vm_compute; congruence. Qed.

Lemma hyphenTriple_lower : forall s, hyphenTriple isLowerLetter s = false.
Proof.
  induction s as [|a s IH]; [done|]. destruct s as [|b [|l s]]; try done.
  rewrite hyphenTriple_cons, IH, orb_false_r.
  destruct (isLowerLetter l) eqn:Hl.
  - by rewrite (lower_upper l Hl), andb_false_r.
  - by rewrite andb_false_r.
Qed.

Lemma hyphenTriple_no_double letter : forall s,
  hyphenBefore (fun c => bool_decide (c = "-"%char)) s = false ->
  hyphenTriple letter s = false.
Proof.
  induction s as [|a s IH]; [done|]. destruct s as [|b [|l s]]; try done.
  rewrite hyphenTriple_cons. intros H.
  change (bool_decide (a = "-"%char) && bool_decide (b = "-"%char) ||
          hyphenBefore (fun c => bool_decide (c = "-"%char)) (String b (String l s)) = false) in H.
  apply orb_false_elim in H as [-> H]. by rewrite (IH H).
Qed.

(** X5.  The older [toCamelCase] leaves no hyphen in front of a lower case
    letter, so applying it to its own result changes nothing. *)
Theorem toCamelCase_old_idempotent (s : string) :
  hyphenBefore isLowerLetter (toCamelCase_old s) = false /\
  toCamelCase_old (toCamelCase_old s) = toCamelCase_old s.
Proof.
  split.
  - apply (toCamelCaseWith_settled isLowerLetter lower_not_hyphen), hyphenTriple_lower.
  - apply (toCamelCaseWith_twice isLowerLetter lower_not_hyphen), hyphenTriple_lower.
Qed.

(** X6.  For a name without two hyphens in a row, [toCamelCase] of
    [utils/markdown.ts] leaves no hyphen in front of a letter, and applying
    it to its own result changes nothing. *)
Theorem toCamelCase_idempotent (s : string) :
  hyphenBefore (fun c => bool_decide (c = "-"%char)) s = false ->
  hyphenBefore (fun c => isLowerLetter c || isUpperLetter c) (toCamelCase s) = false /\
  toCamelCase (toCamelCase s) = toCamelCase s.
Proof.
  intros H%(hyphenTriple_no_double (fun c => isLowerLetter c || isUpperLetter c)).
  split.
  - by apply (toCamelCaseWith_settled _ letter_not_hyphen).
  - by apply (toCamelCaseWith_twice _ letter_not_hyphen).
Qed.

Lemma toCamelCase_idempotent_witness :
  hyphenBefore (fun c => bool_decide (c = "-"%char)) "-webkit-box-shadow" = false /\
  toCamelCase "-webkit-box-shadow" = "WebkitBoxShadow" /\
  toCamelCase (toCamelCase "-webkit-box-shadow") = toCamelCase "-webkit-box-shadow".
Proof.
  split; [reflexivity|]. split; [reflexivity|].
  apply (proj2 (toCamelCase_idempotent "-webkit-box-shadow" eq_refl)).
Defined.

(** With two hyphens in a row the second run removes the remaining hyphen:
    the name of a custom property loses both. *)
Example toCamelCase_custom_property :
  toCamelCase "--main-color" = "-MainColor" /\
  toCamelCase (toCamelCase "--main-color") = "MainColor".
Proof. split; reflexivity. Qed.

(** X7.  The two copies of [toCamelCase] agree on every name in which no
    hyphen is followed by an upper case letter. *)
Theorem toCamelCase_agree : forall s : string,
  hyphenBefore isUpperLetter s = false -> toCamelCase s = toCamelCase_old s.
Proof.
  induction s as [|c|c l s IHl IHs] using string_ind2; [done..|].
  rewrite hyphenBefore_cons. intros [Hm H]%orb_false_elim.
  unfold toCamelCase, toCamelCase_old in *. rewrite !toCamelCaseWith_pair.
  destruct (bool_decide (c = "-"%char)) eqn:Hc; simpl in *.
  - rewrite Hm, orb_false_r. destruct (isLowerLetter l).
    + f_equal. apply IHs. destruct s as [|x s]; [done|].
      rewrite hyphenBefore_cons in H. by apply orb_false_elim in H as [_ H].
    + f_equal. by apply IHl.
  - f_equal. by apply IHl.
Qed.

Lemma toCamelCase_agree_witness :
  hyphenBefore isUpperLetter "background-color" = false /\
  toCamelCase "background-color" = toCamelCase_old "background-color".
Proof.
  split; [reflexivity|]. apply (toCamelCase_agree "background-color"). reflexivity.
Defined.

Example toCamelCase_differ :
  toCamelCase "data-Foo" = "dataFoo" /\ toCamelCase_old "data-Foo" = "data-Foo".
Proof. split; reflexivity. Qed.

(** X8.  Both copies return a name without a hyphen as it is, and never
    return a longer name than they were given. *)
Theorem toCamelCase_without_hyphen (s : string) :
  (occurs "-" s = false -> toCamelCase s = s /\ toCamelCase_old s = s) /\
  String.length (toCamelCase s) <= String.length s /\
  String.length (toCamelCase_old s) <= String.length s.
Proof.
  split; [|split; apply toCamelCaseWith_length].
  intros H.
  assert (Hno : forall letter, hyphenBefore letter s = false).
  { intros letter. induction s as [|c s IH]; [done|].
    simpl in H. apply orb_false_elim in H as [Hc H].
    rewrite hyphenBefore_cons. destruct s as [|l s]; [done|].
    by rewrite Hc, (IH H). }
  split; apply toCamelCaseWith_same, Hno.
Qed.

Lemma toCamelCase_without_hyphen_witness :
  occurs "-" "color" = false /\ toCamelCase "color" = "color" /\
  toCamelCase_old "color" = "color".
Proof.
  split; [reflexivity|].
  apply (proj1 (toCamelCase_without_hyphen "color")). reflexivity.
Defined.

(** ** Heading normalization, run again *)

Lemma mapData_same f : forall t,
  (forall d, d ∈ preorder t -> f d = d) -> mapData f t = t.
Proof.
  induction t as [d|d cs IH] using Node_ind'; intros H; simpl.
  - by rewrite (H d ltac:(left)).
  - rewrite (H d ltac:(left)). do 2 f_equal.
    assert (H' : forall d0, d0 ∈ flat_map preorder cs -> f d0 = d0).
    { intros d0 Hd0. apply H. simpl. by right. }
    clear H. induction IH as [|c cs Hc _ IHcs]; [done|]. simpl.
    rewrite Hc, IHcs; [done|..]; intros d0 Hd0; apply H'; simpl; apply elem_of_app; auto.
Qed.

(** A heading that the pass has renamed keeps its name under a shift by
    nothing. *)
Lemma shiftHeading_renamed m d :
  (forall l, headingLevel d = Some l -> (0 <= m <= l)%Z) ->
  shiftHeading 2 (shiftHeading m d) = shiftHeading m d.
Proof.
  intros Hm. destruct (headingLevel d) as [l|] eqn:Hl.
  - specialize (Hm l eq_refl).
    pose proof (headingLevel_shiftHeading m d l Hl Hm) as Hnew.
    destruct (2 - m + l <=? 9)%Z eqn:Hle.
    + destruct d as [|tagName ps| | |]; try discriminate.
      assert (E : shiftHeading m (element tagName ps) =
                  element ("h" ++ Num_toString (Fin (2 - m + l))) ps).
      { unfold shiftHeading. by rewrite Hl. }
      rewrite E in Hnew |- *. unfold shiftHeading. rewrite Hnew.
      repeat f_equal; lia.
    + by apply shiftHeading_no_level.
  - rewrite (shiftHeading_no_level m d Hl). by apply shiftHeading_no_level.
Qed.

(** X9.  Heading normalization never throws, and applying it to its own
    result changes nothing. *)
Theorem normalizeHeaders_fixed (t : Node) :
  exists t', normalizeHeaders t = Ok t' /\ normalizeHeaders t' = Ok t'.
Proof.
  destruct (headingLevels t) as [|l0 ls] eqn:Hlevels.
  - exists t. split; by apply normalizeHeaders_no_heading.
  - destruct (normalizeHeaders_some_heading t) as (m & Hin & Hall & Hrun);
      [by rewrite Hlevels|].
    exists (mapData (shiftHeading m) t). split; [done|].
    destruct (headingLevels_shifted m t Hin Hall) as [H2 Hge].
    destruct (normalizeHeaders_some_heading (mapData (shiftHeading m) t))
      as (m' & Hin' & Hall' & Hrun').
    { intros E. rewrite E in H2. by apply elem_of_nil in H2. }
    assert (m' = 2%Z) as -> by (specialize (Hall' _ H2); specialize (Hge _ Hin'); lia).
    rewrite Hrun'. f_equal. apply mapData_same.
    intros d' Hd'. rewrite preorder_mapData in Hd'.
    apply list_elem_of_fmap in Hd' as (d & -> & Hd).
    apply shiftHeading_renamed. intros l Hl.
    assert (0 <= m)%Z.
    { apply headingLevels_elem in Hin as (d0 & _ & Hd0).
      by apply headingLevel_range in Hd0 as [? _]. }
    split; [done|]. apply Hall, headingLevels_elem. eauto.
Qed.

(** ** Image attributes, further *)

Lemma split_nonempty sep s : exists p ps, split sep s = p :: ps.
Proof.
  induction s as [|c s (p & ps & IH)]; simpl; [by eexists _, _|].
  case_bool_decide; [by eexists _, _|]. rewrite IH. by eexists _, _.
Qed.

Lemma split_two sep s :
  occurs sep s = true -> exists a b rest, split sep s = a :: b :: rest.
Proof.
  induction s as [|c s IH]; simpl; [done|].
  case_bool_decide as Hc; simpl.
  - intros _. destruct (split_nonempty sep s) as (p & ps & ->). by eexists _, _, _.
  - intros (a & b & rest & ->)%IH. by eexists _, _, _.
Qed.

Lemma occurs_elem c s : occurs c s = true <-> c ∈ list_ascii_of_string s.
Proof.
  induction s as [|c' s IH]; simpl.
  - split; [done|by intros ?%elem_of_nil].
  - rewrite elem_of_cons, orb_true_iff, bool_decide_eq_true, IH.
    split; (intros [?|?]; [by left|by right]).
Qed.

Lemma parseTitle_returns title :
  (exists parsed, parseTitle title = Ok parsed) <-> wellFormedTitle title = true.
Proof.
  unfold wellFormedTitle. split.
  - intros [parsed Hp].
    destruct (forallb (occurs "=") (split ";" (dropFirst title))) eqn:E; [done|].
    apply not_true_iff_false in E. exfalso. apply E. apply forallb_forall.
    intros piece Hin%list_elem_of_In.
    destruct (occurs "=" piece) eqn:Ho; [done|].
    rewrite (parseTitle_throws title piece Hin) in Hp; [done|].
    intros c Hc%occurs_elem ->. congruence.
  - intros H. unfold parseTitle.
    assert (Hm : exists entries,
      mapM trimEntry (map (split "=") (split ";" (dropFirst title))) = Ok entries).
    { rewrite forallb_forall in H.
      induction (split ";" (dropFirst title)) as [|p ps IH]; simpl; [by eexists|].
      destruct (split_two "=" p) as (a & b & rest & ->); [apply H; by left|]. simpl.
      destruct IH as [entries ->]; [intros x Hx; apply H; by right|]. by eexists. }
    destruct Hm as [entries ->]. by eexists.
Qed.

Lemma imageAttribute_directive tagName properties title :
  directive (element tagName (Some properties)) = Some title ->
  imageAttribute (element tagName (Some properties)) tt =
  parsed ← parseTitle title;
  Ok (element tagName (Some (spread (Some properties) parsed)), tt).
Proof.
  unfold directive, imageAttribute. simpl.
  destruct (bool_decide (tagName = "img")); [|done].
  destruct (properties !! "title") as [[t|?]|]; try done.
  destruct (startsWith "#" t); [|done]. by intros [= ->].
Qed.

Lemma imageAttribute_none d :
  isImgNode (node d None) = true -> directive d = None ->
  imageAttribute d tt = Ok (d, tt).
Proof.
  destruct d as [|tagName [properties|]| | |]; try done.
  unfold directive, imageAttribute, isImgNode, isElementNamed. simpl.
  intros ->. destruct (properties !! "title") as [[t|?]|]; try done.
  by destruct (startsWith "#" t).
Qed.

Lemma isImgNode_data n : isImgNode n = isImgNode (node (data n) None).
Proof. by destruct n. Qed.

Lemma directive_img d title : directive d = Some title -> isImgNode (node d None) = true.
Proof.
  destruct d as [|tagName [properties|]| | |]; try done.
  unfold directive, isImgNode, isElementNamed. simpl.
  by destruct (bool_decide (tagName = "img")).
Qed.

Lemma imageAttributes_Ok t t' :
  imageAttributes t = Ok t' <-> visit isImgNode imageAttribute t tt = Ok (t', tt).
Proof.
  unfold imageAttributes.
  destruct (visit isImgNode imageAttribute t tt) as [[t0 []]|e]; simpl; split; congruence.
Qed.

(** X10.  The pass returns exactly when, in the title of every image that
    holds a list of attributes, every piece between semicolons has an
    equals sign; otherwise it throws. *)
Theorem imageAttributes_returns (t : Node) :
  (exists t', imageAttributes t = Ok t') <->
  (forall d title, d ∈ preorder t -> directive d = Some title ->
                   wellFormedTitle title = true).
Proof.
  transitivity (exists t', visit isImgNode imageAttribute t tt = Ok (t', tt)).
  { split; intros [t' Ht]; exists t'; by apply imageAttributes_Ok. }
  rewrite (visit_unit_returns isImgNode (fun d => isImgNode (node d None))
             imageAttribute isImgNode_data).
  split.
  - intros H d title Hd Hdir.
    destruct (H d Hd (directive_img d title Hdir)) as [d' Hd'].
    destruct d as [|tagName [properties|]| | |]; try done.
    rewrite (imageAttribute_directive _ _ _ Hdir) in Hd'.
    apply parseTitle_returns.
    destruct (parseTitle title) as [parsed|e]; [eauto|done].
  - intros H d Hd Himg. destruct (directive d) as [title|] eqn:Hdir.
    + destruct d as [|tagName [properties|]| | |]; try done.
      rewrite (imageAttribute_directive _ _ _ Hdir).
      destruct (proj2 (parseTitle_returns title) (H _ _ Hd Hdir)) as [parsed ->].
      by eexists.
    + rewrite imageAttribute_none by done. by eexists.
Qed.

(** X11.  After a run that returns, an image with a list of attributes in
    its title has the attributes of the list, and the attributes it had
    where the list names none of that key; the fields of every other node
    are as they were. *)
Theorem imageAttributes_merge (t t' : Node) :
  imageAttributes t = Ok t' ->
  forall q n, subtree t q = Some n ->
    exists n', subtree t' q = Some n' /\
      (directive (data n) = None -> data n' = data n) /\
      (forall tagName properties title,
         data n = element tagName (Some properties) ->
         directive (data n) = Some title ->
         exists parsed properties',
           parseTitle title = Ok parsed /\
           data n' = element tagName (Some properties') /\
           forall k, properties' !! k =
                     match parsed !! k with
                     | Some v => Some v
                     | None => properties !! k
                     end).
Proof.
  intros Ht%imageAttributes_Ok q n Hq.
  destruct (visit_unit_positions isImgNode (fun d => isImgNode (node d None))
              imageAttribute isImgNode_data q t t' _ Ht Hq) as (n' & Hq' & Hd & _).
  exists n'. split; [done|]. split.
  - intros Hnone. destruct (isImgNode (node (data n) None)) eqn:Himg; [|done].
    rewrite imageAttribute_none in Hd by done. congruence.
  - intros tagName properties title Hdata Hdir.
    rewrite (directive_img _ _ Hdir) in Hd. rewrite Hdata in Hd, Hdir.
    rewrite (imageAttribute_directive _ _ _ Hdir) in Hd.
    destruct (parseTitle title) as [parsed|e]; [|done].
    injection Hd as Hd. exists parsed, (spread (Some properties) parsed).
    split_and!; [done..|]. intros k. unfold spread. simpl.
    rewrite lookup_union. by destruct (parsed !! k), (properties !! k).
Qed.

Lemma split_no_sep sep s : forall p, p ∈ split sep s -> occurs sep p = false.
Proof.
  induction s as [|c s IH]; simpl; intros p.
  - by intros ->%list_elem_of_singleton.
  - case_bool_decide as Hc.
    + intros [->|Hp]%elem_of_cons; [done|by apply IH].
    + destruct (split sep s) as [|p0 ps] eqn:Hs.
      * intros ->%list_elem_of_singleton. simpl. by rewrite bool_decide_eq_false_2.
      * intros [->|Hp]%elem_of_cons.
        -- simpl. rewrite bool_decide_eq_false_2 by done. apply IH. by left.
        -- apply IH. by right.
Qed.

Lemma split_occurs x sep s : forall p,
  p ∈ split sep s -> occurs x p = true -> occurs x s = true.
Proof.
  induction s as [|c s IH]; simpl; intros p.
  - by intros ->%list_elem_of_singleton.
  - case_bool_decide as Hc.
    + intros [->|Hp]%elem_of_cons; [done|]. intros Hx.
      by rewrite (IH p Hp Hx), orb_true_r.
    + destruct (split sep s) as [|p0 ps] eqn:Hs.
      * intros ->%list_elem_of_singleton. simpl. by intros [->|?]%orb_prop.
      * intros [->|Hp]%elem_of_cons; simpl.
        -- intros [->|Hx]%orb_prop; [done|].
           by rewrite (IH p0 ltac:(left) Hx), orb_true_r.
        -- intros Hx. by rewrite (IH p ltac:(by right) Hx), orb_true_r.
Qed.

Lemma occurs_dropWhile x f s : occurs x (dropWhile f s) = true -> occurs x s = true.
Proof.
  induction s as [|c s IH]; simpl; [done|].
  destruct (f c); [|done]. intros H. by rewrite (IH H), orb_true_r.
Qed.

Lemma occurs_rev_string x s : forall acc,
  occurs x (rev_string s acc) = occurs x s || occurs x acc.
Proof.
  induction s as [|c s IH]; intros acc; simpl; [done|].
  rewrite IH. simpl. by destruct (bool_decide (c = x)), (occurs x s), (occurs x acc).
Qed.

Lemma occurs_trim x s : occurs x (trim s) = true -> occurs x s = true.
Proof.
  unfold trim. rewrite occurs_rev_string, orb_false_r.
  intros H%occurs_dropWhile. rewrite occurs_rev_string, orb_false_r in H.
  by apply occurs_dropWhile in H.
Qed.

Lemma mapM_elem {A B} (f : A -> result B) (l : list A) : forall l' y,
  mapM f l = Ok l' -> y ∈ l' -> exists x, x ∈ l /\ f x = Ok y.
Proof.
  induction l as [|a l IH]; intros l' y; simpl.
  - by intros [= <-] ?%elem_of_nil.
  - destruct (f a) as [b|e] eqn:Ha; simpl; [|done].
    destruct (mapM f l) as [bs|e] eqn:Hl; simpl; [|done].
    intros [= <-] [->|Hy]%elem_of_cons.
    + exists a. split; [by left|done].
    + destruct (IH bs y eq_refl Hy) as (x & Hx & Hfx). exists x. split; [by right|done].
Qed.

Lemma fromEntries_lookup (l : list (string * string)) : forall (m : Properties) k v,
  foldl (fun m kv => <[kv.1 := PStr kv.2]> m) m l !! k = Some v ->
  m !! k = Some v \/ exists s, v = PStr s /\ (k, s) ∈ l.
Proof.
  induction l as [|[k0 s0] l IH]; intros m k v; simpl; [by left|].
  intros [H|(s & -> & Hin)]%IH.
  - simpl in H. destruct (decide (k0 = k)) as [->|Hne].
    + rewrite lookup_insert_eq in H. injection H as <-. right. exists s0.
      split; [done|by left].
    + rewrite lookup_insert_ne in H by done. by left.
  - right. exists s. split; [done|by right].
Qed.

(** X12.  The attributes read off a title are strings under keys that are
    not empty, and neither a key nor a value holds an equals sign or a
    semicolon: a value is cut at its first equals sign. *)
Theorem parseTitle_entries (title : string) (parsed : Properties) (k : string)
    (v : PropValue) :
  parseTitle title = Ok parsed -> parsed !! k = Some v ->
  exists s, v = PStr s /\ k <> "" /\
    occurs "=" k = false /\ occurs ";" k = false /\
    occurs "=" s = false /\ occurs ";" s = false.
Proof.
  unfold parseTitle.
  destruct (mapM trimEntry (map (split "=") (split ";" (dropFirst title))))
    as [entries|e] eqn:Hm; simpl; [|done].
  intros [= <-] Hk. unfold fromEntries in Hk.
  apply fromEntries_lookup in Hk as [Hk|(s & -> & Hin)]; [by rewrite lookup_empty in Hk|].
  apply list_elem_of_filter in Hin as [Hkey Hin]. simpl in Hkey.
  destruct (mapM_elem _ _ _ _ Hm Hin) as (pieces & Hp & Ht).
  apply list_elem_of_In, in_map_iff in Hp as (piece & <- & Hpiece%list_elem_of_In).
  destruct (split "=" piece) as [|key [|val rest]] eqn:Hs; try done.
  injection Ht as <- <-.
  assert (Hkeyin : key ∈ split "=" piece) by (rewrite Hs; left).
  assert (Hvalin : val ∈ split "=" piece) by (rewrite Hs; right; left).
  assert (Hnosemi : occurs ";" piece = false) by (by eapply split_no_sep).
  assert (Hno : forall x p, occurs x p = false -> occurs x (trim p) = false).
  { intros x p Hx. destruct (occurs x (trim p)) eqn:E; [|done].
    apply occurs_trim in E. congruence. }
  assert (Hin' : forall p, p ∈ split "=" piece -> occurs ";" p = false).
  { intros p Hp'. destruct (occurs ";" p) eqn:E; [|done].
    pose proof (split_occurs ";" "=" piece p Hp' E). congruence. }
  exists (trim val). split_and!; try done.
  - intros E. by rewrite E in Hkey.
  - apply Hno. by eapply split_no_sep.
  - apply Hno. by apply Hin'.
  - apply Hno. by eapply split_no_sep.
  - apply Hno. by apply Hin'.
Qed.

Lemma parseTitle_entries_witness :
  parseTitle "#src=/a?w=300;alt=x" = Ok {[ "src" := PStr "/a?w"; "alt" := PStr "x" ]} /\
  exists s, PStr "/a?w" = PStr s /\ "src" <> "" /\
    occurs "=" "src" = false /\ occurs ";" "src" = false /\
    occurs "=" s = false /\ occurs ";" s = false.
Proof.
  assert (H : parseTitle "#src=/a?w=300;alt=x" =
              Ok {[ "src" := PStr "/a?w"; "alt" := PStr "x" ]})
    by (vm_compute; reflexivity).
  split; [exact H|].
  apply (parseTitle_entries "#src=/a?w=300;alt=x" _ "src" (PStr "/a?w") H).
  vm_compute. reflexivity.
Defined.

(** ** Embedded media, further *)

Section OEmbedFurther.
Variable World : Type.
Variable getOEmbed : string -> World -> result (option OEmbed) * World.
Variable parseHtml : option string -> result Node.
Variable aspectOf : Node -> string.

Local Abbreviation pass := (replaceFreeLinkWithOEmbed World getOEmbed parseHtml aspectOf).
Local Abbreviation series := (mapSeries World getOEmbed parseHtml aspectOf).

Lemma pass_not_root n w :
  data n <> root ->
  pass n w =
  match freeLink n with
  | None => (Ok n, w)
  | Some href =>
      match getOEmbed href w with
      | (Ok None, w') => (Ok n, w')
      | (Ok (Some oEmbed), w') => (Ok (card parseHtml aspectOf href oEmbed), w')
      | (Throw e, w') => (Throw e, w')
      end
  end.
Proof. destruct n as [[|tagName ps| | |] [cs|]]; done. Qed.

Lemma series_cons c l w :
  series (c :: l) w =
  match pass c w with
  | (Ok c', w1) =>
      match series l w1 with
      | (Ok r, w2) => (Ok (c' :: r), w2)
      | (Throw e, w2) => (Throw e, w2)
      end
  | (Throw e, w1) => (Throw e, w1)
  end.
Proof. done. Qed.

(** X13.  A lookup that fails ends the pass with its error: the paragraphs
    after it are not looked up, and the state of the service is the one the
    failed lookup left. *)
Theorem replaceFreeLinkWithOEmbed_lookup_fails
    (n : Node) (href : string) (w w' : World) (e : Exn) :
  freeLink n = Some href ->
  getOEmbed href w = (Throw e, w') ->
  pass n w = (Throw e, w') /\
  forall pre pre' post w0,
    series pre w0 = (Ok pre', w) ->
    pass (node root (Some (pre ++ n :: post))) w0 = (Throw e, w').
Proof.
  intros Hfree Hfail.
  assert (Hn : pass n w = (Throw e, w')).
  { rewrite pass_not_root.
    - by rewrite Hfree, Hfail.
    - apply (freeLink_paragraph) in Hfree. intros E. destruct n as [d cs].
      simpl in E. subst d. done. }
  split; [done|]. intros pre pre' post w0 Hpre.
  rewrite (pass_root World getOEmbed parseHtml aspectOf).
  rewrite (series_app World getOEmbed parseHtml aspectOf), Hpre, series_cons, Hn. done.
Qed.


End OEmbedFurther.

Lemma replaceFreeLinkWithOEmbed_lookup_fails_witness :
  freeLink (bareLink None ∅ "https://x.test/") = Some "https://x.test/" /\
  replaceFreeLinkWithOEmbed nat alwaysFails neverParses defaultAspect
    (node root (Some [node (element "h1" None) (Some []);
                      bareLink None ∅ "https://x.test/";
                      bareLink None ∅ "https://y.test/"])) 0 =
  (Throw (TypeError "fetch failed"), 1).
Proof.
  assert (Hfree : freeLink (bareLink None ∅ "https://x.test/") = Some "https://x.test/")
    by (by apply freeLink_bareLink).
  split; [exact Hfree|].
  exact (proj2 (replaceFreeLinkWithOEmbed_lookup_fails nat alwaysFails neverParses
                  defaultAspect _ "https://x.test/" 0 1 (TypeError "fetch failed")
                  Hfree eq_refl)
           [node (element "h1" None) (Some [])]
           [node (element "h1" None) (Some [])]
           [bareLink None ∅ "https://y.test/"] 0 eq_refl).
Defined.


(** ** The passes for an excerpt *)

Lemma getOnlyFirstPara_at_first t p :
  firstParagraphAt t p -> length p <= 1 -> getOnlyFirstPara t = subtree t p.
Proof.
  intros [(n & Hn & Pn) Hmin] Hlen.
  destruct p as [|i [|? ?]]; [| |simpl in Hlen; lia].
  - injection Hn as <-. by apply getOnlyFirstPara_paragraph.
  - assert (Ht : isPNode t = false).
    { destruct (isPNode t) eqn:E; [|done].
      destruct (Hmin [] t eq_refl E) as [?|[]]; done. }
    rewrite getOnlyFirstPara_other, Hn by done.
    rewrite subtree_singleton in Hn.
    apply (find_first _ _ i); [done..|].
    intros j c Hj Hc. destruct (isPNode c) eqn:E; [|done].
    rewrite <- subtree_singleton in Hc.
    destruct (Hmin [j] c Hc E) as [[= ->]|Hb]; [lia|].
    simpl in Hb. destruct Hb as [?|[_ []]]. lia.
Qed.

Lemma addLeadToFirstParagraph_paragraph n :
  isPNode n = true ->
  addLeadToFirstParagraph n = node (withLead (data n)) (children n).
Proof.
  intros H. destruct n as [d cs]. unfold addLeadToFirstParagraph.
  rewrite addLead_paragraph; [done|]. by rewrite isPNode_data in H.
Qed.

(** X15.  For an excerpt, extraction and lead marking together give the
    first paragraph among the root and its children, marked, and nothing
    else of the document: when the first paragraph of the document is
    there, this is the node that lead marking alone marks in the whole
    document.  When neither the root nor a child of it is a paragraph,
    nothing is extracted and the whole document goes on, marked as lead
    marking marks it. *)
Theorem excerptPasses_first_paragraph (t : Node) :
  (forall p, firstParagraphAt t p -> length p <= 1 ->
     Some (excerptPasses t) = subtree (addLeadToFirstParagraph t) p /\
     exists n, subtree t p = Some n /\
               excerptPasses t = node (withLead (data n)) (children n)) /\
  (getOnlyFirstPara t = None -> excerptPasses t = addLeadToFirstParagraph t).
Proof.
  split.
  - intros p Hfirst Hlen.
    pose proof (getOnlyFirstPara_at_first t p Hfirst Hlen) as Hget.
    destruct Hfirst as [(n & Hn & Pn) Hmin].
    assert (Hex : excerptPasses t = node (withLead (data n)) (children n)).
    { unfold excerptPasses, transform. rewrite Hget, Hn. simpl.
      by apply addLeadToFirstParagraph_paragraph. }
    split; [|by exists n].
    assert (H : hasParagraph t = true).
    { destruct (hasParagraph t) eqn:E; [done|].
      by rewrite (no_paragraph_subtree p t n E Hn) in Pn. }
    destruct (addLeadToFirstParagraph_replaceAt t H) as (p0 & n0 & Hfirst0 & Hp0 & Hn0 & Hrun).
    assert (p0 = p) as ->.
    { apply (firstParagraphAt_unique t); [done|]. split; eauto. }
    rewrite Hn in Hp0. injection Hp0 as <-.
    rewrite Hrun, Hex. symmetry. by eapply subtree_replaceAt_eq.
  - intros Hnone. unfold excerptPasses, transform. by rewrite Hnone.
Qed.

Lemma excerptPasses_first_paragraph_witness :
  firstParagraphAt flat_document [1] /\
  Some (excerptPasses flat_document) =
    subtree (addLeadToFirstParagraph flat_document) [1] /\
  excerptPasses flat_document =
    node (element "p" (Some {[ "class" := PStr "lead" ]}))
         (Some [node (text "First") None]).
Proof.
  split; [exact flat_document_first|].
  split.
  - apply (proj1 (excerptPasses_first_paragraph flat_document) [1]
             flat_document_first). simpl. lia.
  - reflexivity.
Defined.

(** The excerpt of a document whose only paragraph is quoted is the whole
    document. *)
Example excerptPasses_quoted :
  excerptPasses quoted_link =
  node root (Some [
    node (element "blockquote" None) (Some [
      node (element "p" (Some {[ "class" := PStr "lead" ]}))
           (children (bareLink None ∅ "https://x.test/"))])]).
Proof. reflexivity. Qed.

(** ** The text of a document *)

Lemma texts_node d cs :
  texts (node d cs) =
  match textOf d with Some v => [v] | None => [] end ++
  flat_map texts (default [] cs).
Proof.
  assert (H : forall l, flat_map texts l = omap textOf (flat_map preorder l)).
  { induction l as [|c l IH]; [done|]. cbn [flat_map]. by rewrite omap_app, IH. }
  rewrite H. unfold texts. destruct cs as [l|]; simpl; by destruct (textOf d).
Qed.

Lemma texts_element n tagName properties :
  data n = element tagName properties -> texts n = flat_map texts (childrenOf n).
Proof. destruct n as [d cs]. simpl. intros ->. by rewrite texts_node. Qed.

Lemma flat_map_texts_ext (f : Node -> Node) l :
  Forall (fun c => texts (f c) = texts c) l ->
  flat_map texts (map f l) = flat_map texts l.
Proof. induction 1 as [|c l Hc _ IH]; [done|]. simpl. by rewrite Hc, IH. Qed.

Lemma texts_wrapLinksInSpans : forall t, texts (wrapLinksInSpans t) = texts t.
Proof.
  induction t as [d|d cs IH] using Node_ind'.
  - simpl. destruct (isAnchorNode (node d None)); [|done].
    unfold innerLink. rewrite texts_node. simpl. by rewrite app_nil_r.
  - simpl. destruct (isAnchorNode (node d (Some cs))).
    + unfold innerLink. rewrite texts_node. simpl. by rewrite app_nil_r.
    + rewrite !texts_node. simpl. by rewrite flat_map_texts_ext.
Qed.

Lemma texts_collapseParagraphs : forall t, texts (collapseParagraphs t) = texts t.
Proof.
  induction t as [d|d cs IH] using Node_ind'.
  - by rewrite collapseParagraphs_leaf.
  - destruct (isPNode (node d (Some cs))) eqn:Hp.
    + rewrite collapseParagraphs_paragraph by done.
      destruct (unwraps (node d (Some cs))) as [c|] eqn:Hu; [|done]. simpl.
      apply unwraps_child in Hu. simpl in Hu. injection Hu as ->.
      destruct (isPNode_inv _ Hp) as [ps Hd]. simpl in Hd. subst d.
      rewrite texts_node. simpl. by rewrite app_nil_r.
    + rewrite collapseParagraphs_parent by (by rewrite isPNode_data in Hp).
      rewrite !texts_node. simpl. by rewrite flat_map_texts_ext.
Qed.

Lemma texts_replaceAt p : forall t n x,
  subtree t p = Some n -> texts x = texts n -> texts (replaceAt t p x) = texts t.
Proof.
  induction p as [|i p IH]; intros t n x; simpl.
  - by intros [= ->].
  - destruct t as [d cs]. unfold childrenOf, setChildren. simpl.
    destruct (default [] cs !! i) as [c|] eqn:Hc; simpl; [|done].
    intros Hn Hx. rewrite !texts_node. simpl. f_equal.
    destruct cs as [l|]; simpl in *; [|done].
    rewrite <- (take_drop_middle l i c Hc) at 2.
    rewrite insert_take_drop by (by eapply lookup_lt_Some).
    rewrite !flat_map_app. simpl. by rewrite (IH c n x Hn Hx).
Qed.

(** X16.  Link wrapping, paragraph collapsing, lead marking and heading
    normalization keep the text of the document: the values of the text
    nodes of the result are those of the input, in the same order. *)
Theorem passes_keep_text (t : Node) :
  texts (wrapLinksInSpans t) = texts t /\
  texts (collapseParagraphs t) = texts t /\
  texts (addLeadToFirstParagraph t) = texts t /\
  texts <$> normalizeHeaders t = Ok (texts t).
Proof.
  split_and!.
  - apply texts_wrapLinksInSpans.
  - apply texts_collapseParagraphs.
  - destruct (hasParagraph t) eqn:H.
    + destruct (addLeadToFirstParagraph_replaceAt t H) as (p & n & _ & Hp & Hn & ->).
      apply (texts_replaceAt p t n); [done|].
      destruct (isPNode_inv n Hn) as [ps Hd]. destruct n as [d cs]. simpl in *. subst d.
      by rewrite !texts_node.
    + unfold addLeadToFirstParagraph. by rewrite (proj1 (addLead_spec t) H).
  - destruct (headingLevels t) as [|l0 ls] eqn:Hlevels.
    + by rewrite normalizeHeaders_no_heading.
    + destruct (normalizeHeaders_some_heading t) as (m & _ & _ & ->);
        [by rewrite Hlevels|].
      simpl. f_equal. unfold texts. rewrite preorder_mapData.
      induction (preorder t) as [|d ds IH]; [done|].
      assert (Hd : textOf (shiftHeading m d) = textOf d).
      { destruct d; try done. unfold shiftHeading. by destruct (headingLevel _). }
      simpl. rewrite Hd. destruct (textOf d); [f_equal|]; apply IH.
Qed.

(** ** The code block of the example *)

Lemma code_sample_returns :
  exists t', addDataToCodeBlocks upperLetters "Code in " code_sample = Ok t'.
Proof. eexists. vm_compute. reflexivity. Defined.

Lemma addDataToCodeBlocks_language_witness :
  exists t',
    addDataToCodeBlocks upperLetters "Code in " code_sample = Ok t' /\
    exists (properties' : Properties) (n' : Node),
      subtree t' [0] = Some n' /\
      data n' = element "pre" (Some properties') /\
      properties' !! "data-lang" = Some (PStr "ts") /\
      ("pre" = "pre" ->
       properties' !! "aria-label" = Some (PStr ("Code in " ++ upperLetters "ts"))) /\
      ("pre" = "code" ->
       properties' !! "aria-label" =
       ({[ "className" := PList ["language-ts"] ]} : Properties) !! "aria-label") /\
      (forall k, k <> "data-lang" -> k <> "aria-label" ->
         properties' !! k = ({[ "className" := PList ["language-ts"] ]} : Properties) !! k).
Proof.
  destruct code_sample_returns as [t' Ht]. exists t'. split; [exact Ht|].
  apply (addDataToCodeBlocks_language upperLetters "Code in " code_sample t' [0] "pre"
           {[ "className" := PList ["language-ts"] ]}
           (Some [node (element "code"
                          (Some {[ "className" := PList ["hljs"; "language-ts"] ]}))
                       (Some [node (text "let x = 1") None])])
           "ts" Ht); reflexivity.
Defined.

Lemma addDataToCodeBlocks_others_witness :
  exists t',
    addDataToCodeBlocks upperLetters "Code in " code_sample = Ok t' /\
    exists n', subtree t' [1; 0] = Some n' /\ data n' = element "code" None.
Proof.
  destruct code_sample_returns as [t' Ht]. exists t'. split; [exact Ht|].
  destruct (proj1 (addDataToCodeBlocks_others upperLetters "Code in " code_sample t' Ht)
              [1; 0] _ eq_refl) as (n' & Hn' & _ & Hd).
  exists n'. split; [exact Hn'|]. apply Hd. reflexivity.
Defined.

Lemma addDataToCodeBlocks_fixed_witness :
  exists t',
    addDataToCodeBlocks upperLetters "Code in " code_sample = Ok t' /\
    addDataToCodeBlocks upperLetters "Code in " t' = Ok t'.
Proof.
  destruct code_sample_returns as [t' Ht]. exists t'. split; [exact Ht|].
  exact (addDataToCodeBlocks_fixed upperLetters "Code in " code_sample t' Ht).
Defined.

Example addDataToCodeBlocks_empty_language :
  addDataToCodeBlocks upperLetters "Code in "
    (node (element "pre" (Some {[ "className" := PList ["language-"; "language-js"] ]}))
          (Some [])) =
  Ok (node (element "pre" (Some {[ "className" := PList ["language-"; "language-js"] ]}))
           (Some [])).
Proof. vm_compute. reflexivity. Qed.

Lemma imageAttributes_merge_witness :
  exists t',
    imageAttributes (image "#width=300;title=Logo") = Ok t' /\
    exists n', subtree t' [0; 0] = Some n' /\
      exists parsed properties',
        parseTitle "#width=300;title=Logo" = Ok parsed /\
        data n' = element "img" (Some properties') /\
        forall k, properties' !! k =
                  match parsed !! k with
                  | Some v => Some v
                  | None =>
                      ({[ "src" := PStr "/a.png";
                          "title" := PStr "#width=300;title=Logo" ]} : Properties) !! k
                  end.
Proof.
  assert (H : exists t', imageAttributes (image "#width=300;title=Logo") = Ok t')
    by (eexists; vm_compute; reflexivity).
  destruct H as [t' Ht]. exists t'. split; [exact Ht|].
  destruct (imageAttributes_merge (image "#width=300;title=Logo") t' Ht [0; 0] _ eq_refl)
    as (n' & Hn' & _ & Hmerge).
  exists n'. split; [exact Hn'|].
  apply (Hmerge "img" _ "#width=300;title=Logo" eq_refl). vm_compute. reflexivity.
Defined.

(** ** The card *)

Section CardFacts.
Variable parseHtml : option string -> result Node.
Variable aspectOf : Node -> string.

End CardFacts.


Section OEmbedReplaced.
Variable World : Type.
Variable getOEmbed : string -> World -> result (option OEmbed) * World.
Variable parseHtml : option string -> result Node.
Variable aspectOf : Node -> string.

Local Abbreviation pass := (replaceFreeLinkWithOEmbed World getOEmbed parseHtml aspectOf).
Local Abbreviation series := (mapSeries World getOEmbed parseHtml aspectOf).

(** X18.  When the lookup answers with metadata, the card takes the place
    of the paragraph: as a child of the root the card stands at the index
    of the paragraph, the children before it are as the pass left them,
    and the children after it are processed from the state the lookup
    left. *)
Theorem replaceFreeLinkWithOEmbed_replaced
    (n : Node) (href : string) (oEmbed : OEmbed) (w w' : World) :
  freeLink n = Some href ->
  getOEmbed href w = (Ok (Some oEmbed), w') ->
  pass n w = (Ok (card parseHtml aspectOf href oEmbed), w') /\
  forall pre pre' post w0,
    series pre w0 = (Ok pre', w) ->
    length pre' = length pre /\
    pass (node root (Some (pre ++ n :: post))) w0 =
    match series post w' with
    | (Ok post', w'') =>
        (Ok (node root (Some (pre' ++ card parseHtml aspectOf href oEmbed :: post'))), w'')
    | (Throw e, w'') => (Throw e, w'')
    end.
Proof.
  intros Hfree Hsome.
  assert (Hn : pass n w = (Ok (card parseHtml aspectOf href oEmbed), w')).
  { rewrite (pass_other World getOEmbed parseHtml aspectOf)
      by (by eapply freeLink_paragraph).
    by rewrite Hfree, Hsome. }
  split; [done|]. intros pre pre' post w0 Hpre.
  split; [by eapply series_length|].
  rewrite (pass_root World getOEmbed parseHtml aspectOf).
  rewrite (series_app World getOEmbed parseHtml aspectOf), Hpre.
  rewrite (series_cons World getOEmbed parseHtml aspectOf), Hn.
  by destruct (series post w') as [[post'|e] w''].
Qed.
End OEmbedReplaced.

Lemma replaceFreeLinkWithOEmbed_replaced_witness :
  replaceFreeLinkWithOEmbed nat
    (fun _ lookups =>
       (Ok (Some {| oembed_type := "photo"; oembed_html := None;
                    oembed_title := Some "T"; thumbnail_url := None;
                    thumbnail_width := None; thumbnail_height := None |}), S lookups))
    neverParses defaultAspect (bareLink None ∅ "http://x/") 0 =
  (Ok (card neverParses defaultAspect "http://x/"
         {| oembed_type := "photo"; oembed_html := None;
            oembed_title := Some "T"; thumbnail_url := None;
            thumbnail_width := None; thumbnail_height := None |}), 1).
Proof.
  apply (replaceFreeLinkWithOEmbed_replaced nat _ neverParses defaultAspect
           (bareLink None ∅ "http://x/") "http://x/").
  - by apply freeLink_bareLink.
  - reflexivity.
Defined.
